(** * Telegraph attribution pipeline: a shallow embedding of [src/pipeline.py]

    The development follows the two functions of the pipeline,
    [calculate_attribution_scores] (the scorer) and [analyze_user_journeys]
    (journey extraction, aggregation and ranking).

    Modelling conventions.
    - A Python [dict] is an association list kept in insertion order:
      assigning to a key that is already present replaces the value where the
      key stands, assigning to a new key appends it.
    - A Python [float] is read as the exact rational it denotes ([Qc], the
      rationals in lowest terms, so that equal credits are equal terms);
      rounding is left out, and the tolerance of the specification is kept
      where it states one.
    - A pandas frame is a list of rows, each carrying the index label it was
      given when the log was read. *)

From Stdlib Require Import List String Ascii ZArith QArith Qcanon Qcabs.
From Stdlib Require Import Lia Bool Permutation Sorted.
From Stdlib Require Import DecimalString DecimalZ DecimalPos.
Import ListNotations.

Open Scope string_scope.
Open Scope list_scope.

(** ** Python values *)

(** Python floats are modelled as exact rationals: [+] and [/] below do not
    round, overflow or underflow.  A statement that compares two float
    results therefore holds of the program only up to rounding, and only
    while [2 ** i] stays within the range of a double; the theorems on sums
    are stated with a tolerance for that reason.

    [float(z)] *)
Definition of_int (z : Z) : Qc := Q2Qc (inject_Z z).

(** [a / b] on two Python ints: true division. *)
Definition truediv (a b : Z) : Qc := (of_int a / of_int b)%Qc.

(** The float literals [1.0], [0.4] and [0.2]. *)
Definition f1_0 : Qc := Q2Qc 1.0.
Definition f0_4 : Qc := Q2Qc 0.4.
Definition f0_2 : Qc := Q2Qc 0.2.

(** [len(l)] as a Python int. *)
Definition len {A : Type} (l : list A) : Z := Z.of_nat (List.length l).

(** [enumerate(l)] *)
Definition enumerate {A : Type} (l : list A) : list (Z * A) :=
  combine (map Z.of_nat (seq 0 (List.length l))) l.

(** [range(n)] *)
Definition range (n : Z) : list Z := map Z.of_nat (seq 0 (Z.to_nat n)).

(** [sum(l)] over Python ints *)
Definition sum (l : list Z) : Z := fold_left Z.add l 0%Z.

(** ** Insertion-ordered dictionaries *)

Definition dict (V : Type) : Type := list (string * V).

Section DictOps.
Context {V : Type}.

Fixpoint dict_get (k : string) (d : dict V) : option V :=
  match d with
  | [] => None
  | (k', v) :: d' => if (k =? k')%string then Some v else dict_get k d'
  end.

(** [d[k] = v] *)
Fixpoint dict_set (k : string) (v : V) (d : dict V) : dict V :=
  match d with
  | [] => [(k, v)]
  | (k', v') :: d' =>
      if (k =? k')%string then (k', v) :: d' else (k', v') :: dict_set k v d'
  end.

(** [d.get(k, dflt)] *)
Definition dict_get_default (k : string) (dflt : V) (d : dict V) : V :=
  match dict_get k d with
  | Some v => v
  | None => dflt
  end.

Definition keys (d : dict V) : list string := map fst d.
Definition values (d : dict V) : list V := map snd d.
Definition items (d : dict V) : list (string * V) := d.
End DictOps.

(** ** The scorer *)

Definition calculate_attribution_scores (journey : list string) (method : string)
  : dict Qc :=
  match journey with
  | [] => []
  | first :: _ =>
      let scores : dict Qc := [] in
      if method =? "count" then
        fold_left (fun scores article => dict_set article f1_0 scores)
          journey scores
      else if method =? "first_touch" then
        dict_set first f1_0 scores
      else if method =? "last_touch" then
        dict_set (last journey first) f1_0 scores
      else if method =? "linear" then
        let score := (f1_0 / of_int (len journey))%Qc in
        fold_left (fun scores article => dict_set article score scores)
          journey scores
      else if method =? "position_based" then
        if (len journey =? 1)%Z then
          dict_set first f1_0 scores
        else
          fold_left
            (fun scores '(i, article) =>
               if (i =? 0)%Z then dict_set article f0_4 scores
               else if (i =? len journey - 1)%Z then dict_set article f0_4 scores
               else dict_set article f0_2 scores)
            (enumerate journey) scores
      else if method =? "time_decay" then
        if (len journey =? 1)%Z then
          dict_set first f1_0 scores
        else
          let total_weight := sum (map (fun i => 2 ^ i)%Z (range (len journey))) in
          fold_left
            (fun scores '(i, article) =>
               dict_set article (truediv (2 ^ i) total_weight) scores)
            (enumerate journey) scores
      else
        scores
  end.

(** Exceptions a call can end in, and the outcome of a call.
    [UnknownPolicyError] is the error spec 4.3 and 7 name for the scorer; no
    statement of the source raises it.  [KeyError] comes from label slicing,
    [IndexError] from [.index[0]] on an empty index.  These are the
    exceptions of a frame whose cells are all strings; the [AttributeError]
    of [url.startswith] on a cell read as NaN is outside the model (see
    [read_csv]). *)
Inductive exn : Type :=
| UnknownPolicyError
| KeyError (label : Z)
| IndexError.

Inductive outcome (A : Type) : Type :=
| Returned (a : A)
| Raised (e : exn).
Arguments Returned {A} a.
Arguments Raised {A} e.

Definition bind {A B : Type} (m : outcome A) (f : A -> outcome B) : outcome B :=
  match m with
  | Returned a => f a
  | Raised e => Raised e
  end.

Notation "x <- m ;; k" := (bind m (fun x => k))
  (at level 61, m at next level, right associativity).

(** The scorer as its caller sees it: its body holds no [raise], so a call
    always returns. *)
Definition call_calculate_attribution_scores (journey : list string)
    (method : string) : outcome (dict Qc) :=
  Returned (calculate_attribution_scores journey method).

(** ** The event log as a pandas frame *)

(** A row of the log.  The timestamp stands for the value [pd.to_datetime]
    parses, as a count of seconds. *)
Record Event : Type := mkEvent {
  page_name : string;
  page_url : string;
  user_id : string;
  timestamp : Z
}.

(** A row is an event under its index label; a frame lists its rows in
    display order. *)
Definition frame : Type := list (Z * Event).

Definition index (df : frame) : list Z := map fst df.

(** [pd.read_csv]: the rows of the log, labelled 0, 1, 2, ...  A log is
    the parsed content of a file that has the four columns, with every
    user_id and page_url cell kept as a string: a cell that pandas reads as
    NaN, a column it infers as numeric and a frame without columns are not
    modelled. *)
Definition read_csv (log : list Event) : frame := enumerate log.

(** [Series.unique()]: the distinct values in order of first appearance. *)
Fixpoint unique (l : list string) : list string :=
  match l with
  | [] => []
  | x :: l' => x :: filter (fun y => negb (y =? x)) (unique l')
  end.

(** Sort by insertion: an element goes in front of the first element it is
    not after, so equal keys keep the order they came in.  This is one of
    the outcomes a sort may have; on keys without ties it is the only one. *)
Fixpoint insert_by {A : Type} (leb : A -> A -> bool) (x : A) (l : list A)
  : list A :=
  match l with
  | [] => [x]
  | y :: l' => if leb x y then x :: y :: l' else y :: insert_by leb x l'
  end.

Definition stable_sort {A : Type} (leb : A -> A -> bool) (l : list A) : list A :=
  fold_right (insert_by leb) [] l.

(** [user_df.sort_values("timestamp")], line 154.  [DataFrame.sort_values]
    is pandas code, outside the repository, and is called with its default
    kind (quicksort), which does not promise to keep tied rows in place.
    The model takes the order spec 3 and 4.2 name, ties in log order; the
    program returns this order for certain only when the timestamps of one
    user are all different. *)
Definition sort_values_timestamp (df : frame) : frame :=
  stable_sort (fun r1 r2 => (timestamp (snd r1) <=? timestamp (snd r2))%Z) df.

(** *** Label-based slicing, [.loc[:label]]

    pandas resolves the end of a label slice with
    [Index.get_slice_bound(label, "right")]: the position after the label
    when the label is in the index; otherwise a search by order, which needs
    the index to be monotonic and raises [KeyError] when it is not. *)

(** [Index.get_loc] on an index without duplicates *)
Fixpoint get_loc (label : Z) (labels : list Z) : option nat :=
  match labels with
  | [] => None
  | l :: labels' =>
      if (l =? label)%Z then Some 0%nat
      else option_map S (get_loc label labels')
  end.

Fixpoint is_monotonic_increasing (labels : list Z) : bool :=
  match labels with
  | [] => true
  | a :: rest =>
      match rest with
      | [] => true
      | b :: _ => (a <=? b)%Z && is_monotonic_increasing rest
      end
  end.

Fixpoint is_monotonic_decreasing (labels : list Z) : bool :=
  match labels with
  | [] => true
  | a :: rest =>
      match rest with
      | [] => true
      | b :: _ => (b <=? a)%Z && is_monotonic_decreasing rest
      end
  end.

(** [searchsorted(label, side)] on an ascending array: how many entries are
    at most ([side="right"]) or below ([side="left"]) the label. *)
Definition searchsorted_right (sorted : list Z) (label : Z) : nat :=
  List.length (filter (fun l => (l <=? label)%Z) sorted).

Definition searchsorted_left (sorted : list Z) (label : Z) : nat :=
  List.length (filter (fun l => (l <? label)%Z) sorted).

Definition get_slice_bound_right (labels : list Z) (label : Z) : outcome nat :=
  match get_loc label labels with
  | Some pos => Returned (S pos)
  | None =>
      if is_monotonic_increasing labels then
        Returned (searchsorted_right labels label)
      else if is_monotonic_decreasing labels then
        Returned (List.length labels - searchsorted_left (rev labels) label)%nat
      else Raised (KeyError label)
  end.

(** [df.loc[:label]] *)
Definition loc_upto (df : frame) (label : Z) : outcome frame :=
  stop <- get_slice_bound_right (index df) label ;;
  Returned (firstn stop df).

(** ** Journey extraction *)

Definition is_registration (r : Z * Event) : bool :=
  page_url (snd r) =? "/register".

(** One round of the loop over [df["user_id"].unique()]. *)
Definition extract_user (df : frame) (user : string)
    (journeys : dict (list string)) : outcome (dict (list string)) :=
  let user_data :=
    sort_values_timestamp (filter (fun r => user_id (snd r) =? user) df) in
  let has_registration := existsb is_registration user_data in
  if negb has_registration then Returned journeys
  else
    match index (filter is_registration user_data) with
    | [] => Raised IndexError
    | registration_index :: _ =>
        rows <- loc_upto user_data (registration_index - 1) ;;
        let articles_before_registration :=
          map (fun r => page_url (snd r)) rows in
        match articles_before_registration with
        | [] => Returned journeys
        | _ :: _ => Returned (dict_set user articles_before_registration journeys)
        end
    end.

(** A [for] loop whose body may raise. *)
Fixpoint for_each {A S : Type} (body : A -> S -> outcome S) (l : list A) (s : S)
  : outcome S :=
  match l with
  | [] => Returned s
  | x :: l' => s' <- body x s ;; for_each body l' s'
  end.

Definition extract_journeys (df : frame) : outcome (dict (list string)) :=
  for_each (extract_user df) (unique (map (fun r => user_id (snd r)) df)) [].

(** ** Aggregation and ranking *)

Record InfluenceRow : Type := mkRow {
  row_page_name : string;
  row_page_url : string;
  total : Qc
}.

(** [s.split(sep)] for a one-character separator *)
Fixpoint split (sep : ascii) (s : string) : list string :=
  match s with
  | EmptyString => [""]
  | String c s' =>
      if Ascii.eqb c sep then "" :: split sep s'
      else
        match split sep s' with
        | [] => [String c ""]
        | w :: ws => String c w :: ws
        end
  end.

Definition slash : ascii := "/"%char.

(** The inner loop over [journey_scores.items()]; the float [+=] is an
    exact sum here. *)
Definition add_scores (journey_scores : dict Qc) (article_scores : dict Qc)
  : dict Qc :=
  fold_left
    (fun article_scores '(article, score) =>
       dict_set article
         (dict_get_default article (of_int 0) article_scores + score)%Qc
         article_scores)
    (items journey_scores) article_scores.

(** The loop over [journeys.values()]. *)
Definition aggregate (journeys : dict (list string)) (attribution_method : string)
  : outcome (dict Qc) :=
  for_each
    (fun journey article_scores =>
       journey_scores <-
         call_calculate_attribution_scores journey attribution_method ;;
       Returned (add_scores journey_scores article_scores))
    (values journeys) [].

(** The loop over [article_scores.items()] that builds [results]. *)
Definition build_results (article_scores : dict Qc) : list InfluenceRow :=
  fold_left
    (fun results '(url, score) =>
       if prefix "/articles/" url then
         let article_name := last (split slash url) "" in
         results ++ [mkRow article_name url score]
       else results)
    (items article_scores) [].

(** [results_df.sort_values("total", ascending=False)], line 193: pandas
    code, outside the repository, called with its default kind (quicksort),
    which does not promise to keep tied rows in place.  The model takes the
    order spec 4.5 names, larger totals first and ties in insertion order;
    of the program only the descending order and the set of rows follow. *)
Definition sort_values_total_desc (results : list InfluenceRow)
  : list InfluenceRow :=
  stable_sort (fun r1 r2 => Qle_bool (total r2) (total r1)) results.

Definition analyze_user_journeys (log : list Event) (attribution_method : string)
  : outcome (list InfluenceRow) :=
  let df := read_csv log in
  journeys <- extract_journeys df ;;
  article_scores <- aggregate journeys attribution_method ;;
  let results := build_results article_scores in
  match results with
  | [] => Returned []
  | _ :: _ => Returned (sort_values_total_desc results)
  end.

(** * Specification-side notions *)

(** The sum of the [2 ^ j] for [j] in [0, n-1]. *)
Fixpoint pow2_sum (n : nat) : Z :=
  match n with
  | O => 0
  | S k => pow2_sum k + 2 ^ Z.of_nat k
  end.

(** The credit rule of spec 4.3 read position by position: what a journey of
    length [n] grants to position [i], [None] where the policy grants
    nothing. *)
Definition position_credit (method : string) (n i : Z) : option Qc :=
  if method =? "count" then Some f1_0
  else if method =? "first_touch" then
    if (i =? 0)%Z then Some f1_0 else None
  else if method =? "last_touch" then
    if (i =? n - 1)%Z then Some f1_0 else None
  else if method =? "linear" then Some (f1_0 / of_int n)%Qc
  else if method =? "position_based" then
    if (n =? 1)%Z then Some f1_0
    else if (i =? 0)%Z then Some f0_4
    else if (i =? n - 1)%Z then Some f0_4
    else Some f0_2
  else if method =? "time_decay" then
    if (n =? 1)%Z then Some f1_0
    else Some (truediv (2 ^ i) (pow2_sum (Z.to_nat n)))
  else None.

(** The per-position credits of a journey, in journey order. *)
Definition position_credits (method : string) (journey : list string)
  : list (string * Qc) :=
  flat_map
    (fun '(i, url) =>
       match position_credit method (len journey) i with
       | Some c => [(url, c)]
       | None => []
       end)
    (enumerate journey).

(** The sum of a list of floats *)
Definition qsum (l : list Qc) : Qc := fold_right Qcplus (Q2Qc 0) l.

(** Two ways to merge the credits a URL collects: add them up, or keep the
    one granted last. *)
Definition summed_credit (url : string) (credits : list (string * Qc)) : Qc :=
  qsum (map snd (filter (fun kv => fst kv =? url) credits)).

Definition last_credit (url : string) (credits : list (string * Qc))
  : option Qc :=
  dict_get url (rev credits).

Definition occurrences (url : string) (journey : list string) : nat :=
  List.length (filter (fun u => u =? url) journey).

Definition sum_values (d : dict Qc) : Qc := qsum (values d).

(** Conservation of credit, with the tolerance of spec 8. *)
Definition credit_conserved (d : dict Qc) : Prop :=
  ([sum_values d - f1_0] <= Q2Qc 1e-9)%Qc.

Definition recognized (method : string) : bool :=
  existsb (String.eqb method)
    ["count"; "first_touch"; "last_touch"; "linear"; "position_based";
     "time_decay"].

Definition normalized (method : string) : bool :=
  existsb (String.eqb method)
    ["first_touch"; "last_touch"; "linear"; "position_based"; "time_decay"].

(** Running a list of assignments [d[k] = v] in order. *)
Definition assign_all {V : Type} (kvs : list (string * V)) (d : dict V)
  : dict V :=
  fold_left (fun d kv => dict_set (fst kv) (snd kv) d) kvs d.


(** The journey of spec 4.2 and 3: the events of the user in stable time
    order, cut strictly before the first registration. *)
Definition user_events (log : list Event) (user : string) : list Event :=
  filter (fun e => user_id e =? user) log.

Definition by_time (events : list Event) : list Event :=
  stable_sort (fun e1 e2 => (timestamp e1 <=? timestamp e2)%Z) events.

Fixpoint before_registration (events : list Event) : list string :=
  match events with
  | [] => []
  | e :: rest =>
      if page_url e =? "/register" then []
      else page_url e :: before_registration rest
  end.

Definition journey_of (log : list Event) (user : string) : list string :=
  before_registration (by_time (user_events log user)).

Definition registered (log : list Event) (user : string) : bool :=
  existsb (fun e => page_url e =? "/register") (user_events log user).

(** A user qualifies when they registered and something precedes their first
    registration. *)
Definition qualifies (log : list Event) (user : string) : bool :=
  registered log user
  && match journey_of log user with [] => false | _ :: _ => true end.

(** The rows of one user appear in the log in time order. *)
Fixpoint time_ordered (events : list Event) : bool :=
  match events with
  | [] => true
  | e1 :: rest =>
      match rest with
      | [] => true
      | e2 :: _ => (timestamp e1 <=? timestamp e2)%Z && time_ordered rest
      end
  end.

(** Labels that increase with the position. *)
Definition increasing (labels : list Z) : Prop := StronglySorted Z.lt labels.

Definition contains (c : ascii) (s : string) : bool :=
  existsb (Ascii.eqb c) (list_ascii_of_string s).

(** The log with every [page_name] rewritten. *)
Definition rename_pages (rename : Event -> string) (log : list Event)
  : list Event :=
  map (fun e => mkEvent (rename e) (page_url e) (user_id e) (timestamp e)) log.

Definition rename_row (rename : Event -> string) (r : Z * Event) : Z * Event :=
  (fst r,
   mkEvent (rename (snd r)) (page_url (snd r)) (user_id (snd r))
     (timestamp (snd r))).

(** Logs used as examples: one user, events given as (url, time). *)
Definition visit (user url : string) (time : Z) : Event :=
  mkEvent "" url user time.

Definition late_logged_registration : list Event :=
  [visit "u" "/articles/a" 5; visit "u" "/register" 3; visit "u" "/articles/b" 1].

Definition registration_logged_first : list Event :=
  [visit "u" "/register" 10; visit "u" "/articles/a" 1; visit "u" "/articles/b" 2].

Definition registration_is_first_event : list Event :=
  [visit "u" "/articles/a" 5; visit "u" "/register" 1].

Definition two_readers : list Event :=
  [visit "u1" "/articles/a" 1; visit "u1" "/articles/b" 2;
   visit "u1" "/register" 3;
   visit "u2" "/articles/b" 1; visit "u2" "/articles/c" 2;
   visit "u2" "/register" 3].

(** * Notions for further properties *)

(** [k not in ks] *)
Definition absent_from (ks : list string) (k : string) : bool :=
  negb (existsb (String.eqb k) ks).

(** The credit a URL gets in one journey (0 when the scorer gives it no
    entry), and what it gets over a list of journeys. *)
Definition journey_credit (method url : string) (journey : list string) : Qc :=
  dict_get_default url (of_int 0) (calculate_attribution_scores journey method).

Definition total_credit (method url : string) (journeys : list (list string))
  : Qc :=
  qsum (map (journey_credit method url) journeys).

(** How many of the journeys visit the URL. *)
Definition journeys_visiting (url : string) (journeys : list (list string))
  : nat :=
  List.length (filter (existsb (String.eqb url)) journeys).

(** One round of the loop over [journeys.values()]. *)
Definition aggregate_step (method : string) (article_scores : dict Qc)
    (journey : list string) : dict Qc :=
  add_scores (calculate_attribution_scores journey method) article_scores.

(** ** The entry point *)

(** [df.head(n)]: the first [n] rows, or all but the last [-n] rows when [n]
    is negative. *)
Definition head {A : Type} (n : Z) (df : list A) : list A :=
  if (0 <=? n)%Z then firstn (Z.to_nat n) df
  else firstn (List.length df - Z.to_nat (- n)) df.

(** [analysis] of the main block, as far as the table it prints and writes
    goes. *)
Definition analysis (log : list Event) (attribution_method : string) (top : Z)
  : outcome (list InfluenceRow) :=
  results <- analyze_user_journeys log attribution_method ;;
  let topN := head top results in
  Returned topN.

(** ** The synthetic data generator *)

(** [str(n)] for a Python int *)
Definition str (n : Z) : string := NilZero.string_of_int (Z.to_int n).

(** [range(1, n + 1)] *)
Definition range_from_1 (n : Z) : list Z := map Z.of_nat (seq 1 (Z.to_nat n)).

(** The part of Python's [random] module the generator calls, over a
    generator state: [randint(a, b)] for [a <= b], [sample(population, k)]
    for [0 <= k <= len(population)], and [random()]. *)
Class Random (rng : Type) : Type := {
  randint : Z -> Z -> rng -> Z * rng;
  sample : list string -> Z -> rng -> list string * rng;
  random : rng -> Qc * rng
}.

(** What the generator relies on: [randint] stays within its bounds, and
    [sample] picks [k] elements of the population at distinct positions. *)
Record RandomLaws (rng : Type) (R : Random rng) : Prop := {
  randint_range :
    forall a b s, (a <= b)%Z -> (a <= fst (randint a b s) <= b)%Z;
  sample_length :
    forall population k s,
      (0 <= k <= len population)%Z -> len (fst (sample population k s)) = k;
  sample_incl :
    forall population k s,
      (0 <= k <= len population)%Z ->
      incl (fst (sample population k s)) population;
  sample_NoDup :
    forall population k s,
      (0 <= k <= len population)%Z -> NoDup population ->
      NoDup (fst (sample population k s))
}.

(** A run of generator code ends with a value and a generator state, or in
    the [ValueError] that [randint] raises on an empty range and [sample] on
    a size that is negative or larger than the population. *)
Inductive generated (rng A : Type) : Type :=
| Generated (a : A) (s : rng)
| ValueError.
Arguments Generated {rng A} a s.
Arguments ValueError {rng A}.

Definition gen (rng A : Type) : Type := rng -> generated rng A.

Definition gen_ret {rng A : Type} (a : A) : gen rng A := fun s => Generated a s.

Definition gen_bind {rng A B : Type} (m : gen rng A) (f : A -> gen rng B)
  : gen rng B :=
  fun s =>
    match m s with
    | Generated a s' => f a s'
    | ValueError => ValueError
    end.

Notation "x <~ m ;; k" := (gen_bind m (fun x => k))
  (at level 61, m at next level, right associativity).

Section Generator.
Context {rng : Type} {R : Random rng}.

Definition py_randint (a b : Z) : gen rng Z :=
  fun s =>
    if (b <? a)%Z then ValueError
    else Generated (fst (randint a b s)) (snd (randint a b s)).

Definition py_sample (population : list string) (k : Z) : gen rng (list string) :=
  fun s =>
    if ((k <? 0) || (len population <? k))%Z then ValueError
    else Generated (fst (sample population k s)) (snd (sample population k s)).

Definition py_random : gen rng Qc :=
  fun s => Generated (fst (random s)) (snd (random s)).

(** [datetime(2024, 3, 21, 10, 0, 0)], in seconds. *)
Definition base_timestamp : Z := 1711015200.

(** The loop over the journey: a row for the article, then a step of one to
    five minutes. *)
Fixpoint add_articles (user_id : string) (journey : list string)
    (data : list Event) (timestamp : Z) : gen rng (list Event * Z) :=
  match journey with
  | [] => gen_ret (data, timestamp)
  | article :: journey' =>
      let data :=
        data ++ [mkEvent (last (split slash article) "") article user_id
                   timestamp] in
      minutes <~ py_randint 1 5 ;;
      add_articles user_id journey' data (timestamp + minutes * 60)
  end.

(** One round of the loop over the users. *)
Definition generate_user (articles : list string)
    (max_articles_per_journey : Z) (registration_rate : Qc) (user_number : Z)
    (data : list Event) : gen rng (list Event) :=
  let user_id := ("user" ++ str user_number)%string in
  hours <~ py_randint 0 24 ;;
  let timestamp := (base_timestamp + hours * 3600)%Z in
  num_articles <~ py_randint 1 max_articles_per_journey ;;
  journey <~ py_sample articles num_articles ;;
  added <~ add_articles user_id journey data timestamp ;;
  x <~ py_random ;;
  match (x ?= registration_rate)%Qc with
  | Lt =>
      gen_ret (fst added
               ++ [mkEvent "Register" "/register" user_id (snd added)])
  | _ => gen_ret (fst added)
  end.

Fixpoint gen_for_each {A S : Type} (body : A -> S -> gen rng S) (l : list A)
    (s : S) : gen rng S :=
  match l with
  | [] => gen_ret s
  | x :: l' => s' <~ body x s ;; gen_for_each body l' s'
  end.

Definition generate_synthetic_data (num_users num_articles
    max_articles_per_journey : Z) (registration_rate : Qc)
  : gen rng (list Event) :=
  let articles :=
    map (fun i => ("/articles/article" ++ str i)%string)
      (range_from_1 num_articles) in
  gen_for_each (generate_user articles max_articles_per_journey
                  registration_rate)
    (range_from_1 num_users) [].
End Generator.

(** A small generator over a counter: [randint] walks through its range,
    [sample] takes the first elements, [random] alternates between 0.0 and
    0.5.  It serves to run the generator on. *)
#[local] Instance counter_draws : Random Z := {
  randint a b s := ((a + s mod (b - a + 1))%Z, (s + 1)%Z);
  sample population k s := (firstn (Z.to_nat k) population, (s + 1)%Z);
  random s := ((if Z.even s then Q2Qc 0 else Q2Qc 0.5), (s + 1)%Z)
}.

(** The two kinds of rows the generator writes. *)
Definition article_row (articles : list string) (e : Event) : Prop :=
  In (page_url e) articles
  /\ page_name e = last (split slash (page_url e)) "".

Definition register_row (e : Event) : Prop :=
  page_url e = "/register" /\ page_name e = "Register".

(** What holds of the rows written so far, once the users in [done] have
    been generated. *)
Definition generated_ok (articles : list string) (done : list Z)
    (data : list Event) : Prop :=
  (forall e,
      In e data ->
      (exists j, In j done /\ user_id e = ("user" ++ str j)%string)
      /\ (register_row e \/ article_row articles e))
  /\ (forall user, time_ordered (user_events data user) = true)
  /\ (forall user e rest,
        user_events data user = e :: rest -> article_row articles e).

(** The article URLs the generator builds. *)
Definition article_urls (num_articles : Z) : list string :=
  map (fun i => ("/articles/article" ++ str i)%string)
    (range_from_1 num_articles).

(** The rows of one run of the generator: three users, four articles, at
    most three articles per journey, registration rate 0.3. *)
Definition example_data : list Event :=
  Eval vm_compute in
    match generate_synthetic_data (R := counter_draws) 3 4 3 (Q2Qc 0.3) 1%Z with
    | Generated df _ => df
    | ValueError => []
    end.


(** Equal within the tolerance of spec 8. *)
Definition close_to (x y : Qc) : Prop := ([x - y] <= Q2Qc 1e-9)%Qc.




(** * Facts about dictionaries *)

Section DictFacts.
Context {V : Type}.
Implicit Types (d : dict V) (k : string) (v : V).

Lemma dict_get_set_same k v d : dict_get k (dict_set k v d) = Some v.
Proof.
  induction d as [|[k' v'] d IH]; simpl.
  - now rewrite String.eqb_refl.
  - destruct (k =? k') eqn:E; simpl; rewrite E; auto.
Qed.

Lemma dict_get_set_other k k' v d :
  k <> k' -> dict_get k (dict_set k' v d) = dict_get k d.
Proof.
  intros Hne. induction d as [|[k0 v0] d IH]; simpl.
  - destruct (String.eqb_spec k k'); congruence.
  - destruct (String.eqb_spec k' k0); simpl.
    + subst. destruct (String.eqb_spec k k0); congruence.
    + destruct (String.eqb_spec k k0); auto.
Qed.

Lemma dict_get_None k d : dict_get k d = None <-> ~ In k (keys d).
Proof.
  induction d as [|[k' v'] d IH]; simpl.
  - tauto.
  - destruct (String.eqb_spec k k').
    + split; [discriminate | intros H; exfalso; apply H; auto].
    + rewrite IH. split; [intros H [E|I]; [congruence | auto] | tauto].
Qed.

Lemma dict_set_fresh k v d : ~ In k (keys d) -> dict_set k v d = d ++ [(k, v)].
Proof.
  induction d as [|[k' v'] d IH]; simpl; intros H; auto.
  destruct (String.eqb_spec k k').
  - exfalso; apply H; auto.
  - rewrite IH; auto.
Qed.

Lemma keys_set_present k v d : In k (keys d) -> keys (dict_set k v d) = keys d.
Proof.
  induction d as [|[k' v'] d IH]; simpl; intros H; [tauto|].
  destruct (String.eqb_spec k k'); simpl; auto.
  f_equal. apply IH. destruct H; congruence.
Qed.

Lemma keys_set k v d :
  keys (dict_set k v d) = if in_dec string_dec k (keys d) then keys d
                          else keys d ++ [k].
Proof.
  destruct (in_dec string_dec k (keys d)).
  - now apply keys_set_present.
  - rewrite dict_set_fresh by assumption. unfold keys. now rewrite map_app.
Qed.

Lemma NoDup_keys_set k v d : NoDup (keys d) -> NoDup (keys (dict_set k v d)).
Proof.
  intros H. rewrite keys_set. destruct (in_dec string_dec k (keys d)); auto.
  apply NoDup_app; auto.
  - repeat constructor. simpl. tauto.
  - intros x Hx [E|[]]. congruence.
Qed.

Lemma assign_all_app (l1 l2 : list (string * V)) d :
  assign_all (l1 ++ l2) d = assign_all l2 (assign_all l1 d).
Proof. unfold assign_all. apply fold_left_app. Qed.

Lemma NoDup_keys_assign_all (kvs : list (string * V)) d :
  NoDup (keys d) -> NoDup (keys (assign_all kvs d)).
Proof.
  revert d. induction kvs as [|[k v] kvs IH]; simpl; intros d H; auto.
  apply IH. now apply NoDup_keys_set.
Qed.

(** Assignments to pairwise distinct new keys are appended as they come. *)
Lemma assign_all_fresh (kvs : list (string * V)) d :
  NoDup (map fst kvs) ->
  (forall k, In k (map fst kvs) -> ~ In k (keys d)) ->
  assign_all kvs d = d ++ kvs.
Proof.
  revert d. induction kvs as [|[k v] kvs IH]; simpl; intros d Hnd Hfresh.
  - now rewrite app_nil_r.
  - inversion Hnd as [|? ? Hk Hnd']; subst.
    rewrite dict_set_fresh by auto.
    rewrite IH; auto.
    + now rewrite <- app_assoc.
    + intros k' Hin. unfold keys. rewrite map_app, in_app_iff. simpl.
      intros [H|[H|[]]].
      * apply (Hfresh k'); auto.
      * subst. auto.
Qed.

(** In a run of assignments the last one to a key is the one that stays. *)
Lemma dict_get_assign_all (kvs : list (string * V)) d k :
  dict_get k (assign_all kvs d) =
    match dict_get k (rev kvs) with
    | Some v => Some v
    | None => dict_get k d
    end.
Proof.
  revert d. induction kvs as [|[k' v'] kvs IH] using rev_ind; intros d.
  - reflexivity.
  - rewrite assign_all_app, rev_app_distr. simpl.
    destruct (String.eqb_spec k k').
    + subst. apply dict_get_set_same.
    + rewrite dict_get_set_other by assumption. apply IH.
Qed.
End DictFacts.

(** * Facts about positions *)

Lemma map_fst_combine_same {A B : Type} (l : list A) (l' : list B) :
  List.length l = List.length l' -> map fst (combine l l') = l.
Proof.
  revert l'. induction l as [|a l IH]; intros [|b l'] H; simpl in *;
    try discriminate; auto.
  f_equal. apply IH. lia.
Qed.

Lemma combine_app_same {A B : Type} (l1 l2 : list A) (l1' l2' : list B) :
  List.length l1 = List.length l1' ->
  combine (l1 ++ l2) (l1' ++ l2') = combine l1 l1' ++ combine l2 l2'.
Proof.
  revert l1'. induction l1 as [|a l1 IH]; intros [|b l1'] H; simpl in *;
    try discriminate; auto.
  f_equal. apply IH. lia.
Qed.

Lemma enumerate_cons {A : Type} (a : A) (l : list A) :
  enumerate (a :: l) = (0%Z, a) :: map (fun p => (fst p + 1, snd p)%Z) (enumerate l).
Proof.
  unfold enumerate. simpl. f_equal.
  rewrite <- seq_shift, map_map.
  generalize (seq 0 (List.length l)) as ns. intros ns; revert l.
  induction ns as [|n ns IH]; intros [|b l]; simpl; auto.
  rewrite IH. do 2 f_equal. lia.
Qed.

Lemma map_snd_enumerate {A : Type} (l : list A) : map snd (enumerate l) = l.
Proof.
  induction l as [|a l IH]; auto.
  rewrite enumerate_cons. simpl. rewrite map_map. f_equal.
  etransitivity; [|exact IH]. now apply map_ext.
Qed.

Lemma map_fst_enumerate {A : Type} (l : list A) :
  map fst (enumerate l) = range (len l).
Proof.
  unfold enumerate, range, len. rewrite Nat2Z.id.
  rewrite map_fst_combine_same; auto. now rewrite length_map, length_seq.
Qed.

Lemma length_enumerate {A : Type} (l : list A) :
  List.length (enumerate l) = List.length l.
Proof. now rewrite <- (length_map snd), map_snd_enumerate. Qed.

Lemma in_enumerate_bounds {A : Type} (l : list A) i a :
  In (i, a) (enumerate l) -> (0 <= i < len l)%Z.
Proof.
  intros H. apply (in_map fst) in H. rewrite map_fst_enumerate in H.
  unfold range, len in *. rewrite Nat2Z.id in H. simpl in H.
  apply in_map_iff in H as (n & <- & Hn). apply in_seq in Hn. simpl. lia.
Qed.

Lemma enumerate_app_last {A : Type} (l : list A) (a : A) :
  enumerate (l ++ [a]) = enumerate l ++ [(len l, a)].
Proof.
  unfold enumerate, len. rewrite length_app. simpl.
  rewrite Nat.add_1_r, seq_S, map_app. simpl.
  rewrite combine_app_same; auto. now rewrite length_map, length_seq.
Qed.

(** A loop of guarded assignments runs the assignments it is granted. *)
Lemma fold_guarded_assign {I : Type} (w : I -> option Qc)
    (l : list (I * string)) (d : dict Qc) :
  fold_left
    (fun d '(i, a) => match w i with Some c => dict_set a c d | None => d end)
    l d
  = assign_all
      (flat_map (fun '(i, a) => match w i with Some c => [(a, c)] | None => [] end) l)
      d.
Proof.
  revert d. induction l as [|[i a] l IH]; intros d; simpl; auto.
  rewrite IH. destruct (w i); reflexivity.
Qed.

Lemma fold_left_ext_in {A B : Type} (f g : A -> B -> A) (l : list B) (a : A) :
  (forall x y, In y l -> f x y = g x y) -> fold_left f l a = fold_left g l a.
Proof.
  revert a. induction l as [|b l IH]; intros a H; simpl; auto.
  rewrite H by (left; auto). apply IH. intros; apply H; right; auto.
Qed.

Lemma fold_over_journey (c : Qc) (journey : list string) (d : dict Qc) :
  fold_left (fun scores article => dict_set article c scores) journey d
  = fold_left (fun d '(i, a) => match Some c with Some c => dict_set a c d | None => d end)
      (enumerate journey) d.
Proof.
  rewrite <- (map_snd_enumerate journey) at 1.
  generalize (enumerate journey) as l. intros l; revert d.
  induction l as [|[i a] l IH]; intros d; simpl; auto.
Qed.

Lemma flat_map_none {A B : Type} (f : A -> list B) (l : list A) :
  (forall x, In x l -> f x = []) -> flat_map f l = [].
Proof.
  induction l as [|a l IH]; intros H; simpl; auto.
  rewrite H by (left; auto). apply IH. intros; apply H; right; auto.
Qed.

Lemma sum_app (l : list Z) (x : Z) : sum (l ++ [x]) = (sum l + x)%Z.
Proof. unfold sum. now rewrite fold_left_app. Qed.

Lemma sum_pow2_range (n : nat) :
  sum (map (fun i => 2 ^ i)%Z (range (Z.of_nat n))) = pow2_sum n.
Proof.
  unfold range. rewrite Nat2Z.id.
  induction n as [|n IH]; auto.
  rewrite seq_S, !map_app. cbn [map Nat.add]. rewrite sum_app, IH. reflexivity.
Qed.

Lemma pow2_sum_closed (n : nat) : pow2_sum n = (2 ^ Z.of_nat n - 1)%Z.
Proof.
  induction n as [|n IH]; auto.
  cbn [pow2_sum]. rewrite IH, Nat2Z.inj_succ, Z.pow_succ_r by lia. lia.
Qed.

Lemma last_enumerate (journey : list string) (first : string) i a :
  In (i, a) (enumerate journey) -> i = (len journey - 1)%Z ->
  a = last journey first.
Proof.
  destruct journey as [|x l] using rev_ind; [intros []|].
  clear IHl. rewrite enumerate_app_last, last_last. intros Hin Hi.
  apply in_app_iff in Hin as [Hin|[Hin|[]]].
  - apply in_enumerate_bounds in Hin. unfold len in *.
    rewrite length_app in Hi. simpl in Hi. lia.
  - congruence.
Qed.

(** * The scorer runs the per-position credits as assignments *)

Lemma len_one_singleton {A : Type} (a : A) (l : list A) :
  (len (a :: l) =? 1)%Z = true -> l = [].
Proof.
  unfold len. simpl List.length. intros H. apply Z.eqb_eq in H.
  destruct l; [reflexivity | simpl in H; lia].
Qed.

Lemma total_weight_pow2_sum {A : Type} (l : list A) :
  sum (map (fun i => 2 ^ i)%Z (range (len l))) = pow2_sum (Z.to_nat (len l)).
Proof. unfold len. rewrite sum_pow2_range. now rewrite Nat2Z.id. Qed.

Lemma scores_as_assignments (journey : list string) (method : string) :
  calculate_attribution_scores journey method
  = assign_all (position_credits method journey) [].
Proof.
  destruct journey as [|first rest]; [reflexivity|].
  unfold calculate_attribution_scores, position_credits, position_credit.
  set (journey := first :: rest).
  destruct (method =? "count").
  { rewrite fold_over_journey.
    exact (fold_guarded_assign (fun _ => Some f1_0) _ _). }
  destruct (method =? "first_touch").
  { subst journey. rewrite enumerate_cons. simpl.
    rewrite flat_map_none; [reflexivity|].
    intros [i a] Hin. apply in_map_iff in Hin as ([i' a'] & E & Hin).
    apply in_enumerate_bounds in Hin. inversion E; subst. simpl.
    destruct (Z.eqb_spec (i' + 1) 0); [lia | reflexivity]. }
  destruct (method =? "last_touch").
  { assert (Hne : journey <> []) by discriminate. clearbody journey.
    destruct (exists_last Hne) as (l & x & E). rewrite E. clear E Hne.
    rewrite last_last, enumerate_app_last, flat_map_app.
    assert (Hlen : (len (l ++ [x]) - 1 = len l)%Z).
    { unfold len. rewrite length_app. simpl. lia. }
    rewrite Hlen, flat_map_none.
    - simpl. now rewrite Z.eqb_refl.
    - intros [i a] Hin. apply in_enumerate_bounds in Hin.
      destruct (Z.eqb_spec i (len l)); [lia | reflexivity]. }
  destruct (method =? "linear").
  { rewrite fold_over_journey.
    exact (fold_guarded_assign
             (fun _ => Some (f1_0 / of_int (len journey))%Qc) _ _). }
  destruct (method =? "position_based").
  { destruct (len journey =? 1)%Z eqn:E1.
    - apply len_one_singleton in E1. subst journey rest. reflexivity.
    - rewrite <- (fold_guarded_assign
                    (fun i => if (i =? 0)%Z then Some f0_4
                              else if (i =? len journey - 1)%Z then Some f0_4
                              else Some f0_2)).
      apply fold_left_ext_in. intros d [i a] _.
      destruct (i =? 0)%Z; [reflexivity|].
      destruct (i =? len journey - 1)%Z; reflexivity. }
  destruct (method =? "time_decay").
  { destruct (len journey =? 1)%Z eqn:E1.
    - apply len_one_singleton in E1. subst journey rest. reflexivity.
    - rewrite total_weight_pow2_sum.
      exact (fold_guarded_assign
               (fun i => Some (truediv (2 ^ i)
                                 (pow2_sum (Z.to_nat (len journey))))) _ _). }
  rewrite flat_map_none; [reflexivity|]. now intros [i a] _.
Qed.

Lemma position_credits_total (w : Qc) (method : string) (journey : list string) :
  (forall i, position_credit method (len journey) i = Some w) ->
  position_credits method journey = map (fun url => (url, w)) journey.
Proof.
  intros Hw. unfold position_credits.
  rewrite <- (map_snd_enumerate journey) at 2.
  generalize (len journey) (enumerate journey) Hw. clear.
  intros n l Hw. induction l as [|[i a] l IH]; simpl; auto.
  now rewrite Hw, IH.
Qed.

Lemma dict_get_constant (w : Qc) (url : string) (l : list string) :
  dict_get url (map (fun u => (u, w)) l)
  = if existsb (fun u => u =? url) l then Some w else None.
Proof.
  induction l as [|a l IH]; simpl; auto.
  rewrite (String.eqb_sym a url). destruct (url =? a); auto.
Qed.

Lemma occurrences_zero (url : string) (l : list string) :
  (occurrences url l =? 0)%nat = negb (existsb (fun u => u =? url) l).
Proof.
  unfold occurrences. induction l as [|a l IH]; simpl; auto.
  destruct (a =? url); simpl; auto.
Qed.

Lemma existsb_rev {A : Type} (f : A -> bool) (l : list A) :
  existsb f (rev l) = existsb f l.
Proof.
  induction l as [|a l IH]; simpl; auto.
  rewrite existsb_app, IH. simpl. rewrite orb_false_r. apply orb_comm.
Qed.

(** * The scorer: claims *)

(** C8. On the empty journey the scorer returns the empty mapping, whatever
    the policy name, recognized or not: the test on the journey comes before
    the dispatch on the policy. *)
Theorem empty_journey_empty_mapping (method : string) :
  calculate_attribution_scores [] method = []
  /\ call_calculate_attribution_scores [] method = Returned [].
Proof. split; reflexivity. Qed.

(** C3 as stated fails: a name outside the recognized set does not make the
    scorer raise. *)
Lemma unknown_policy_does_not_raise :
  ~ (forall journey method,
        journey <> [] -> recognized method = false ->
        call_calculate_attribution_scores journey method
        = Raised UnknownPolicyError).
Proof.
  intros H. specialize (H ["/a1"] "median_touch").
  discriminate H; [discriminate | reflexivity].
Qed.

(** C3, amended. For every journey, a policy name outside the recognized set
    makes the scorer return the empty mapping; no error is raised. *)
Theorem unknown_policy_empty_mapping (journey : list string) (method : string) :
  recognized method = false ->
  call_calculate_attribution_scores journey method = Returned [].
Proof.
  unfold recognized, call_calculate_attribution_scores. simpl.
  intros H. f_equal. destruct journey as [|first rest]; [reflexivity|].
  unfold calculate_attribution_scores.
  repeat match type of H with
         | (?b || _) = false => destruct b; [discriminate H | simpl in H]
         end.
  reflexivity.
Qed.

Lemma unknown_policy_empty_mapping_witness :
  recognized "median_touch" = false
  /\ call_calculate_attribution_scores ["/a1"; "/a2"] "median_touch"
     = Returned [].
Proof.
  split; [reflexivity|].
  apply (unknown_policy_empty_mapping ["/a1"; "/a2"] "median_touch").
  reflexivity.
Defined.

(** C2 as stated fails: the credits a repeated URL collects are not added
    up, neither in general nor in the two cases the claim names. *)
Lemma repeated_url_not_summed :
  ~ (forall journey method url,
        (1 < occurrences url journey)%nat ->
        dict_get url (calculate_attribution_scores journey method)
        = Some (summed_credit url (position_credits method journey)))
  /\ dict_get "/a" (calculate_attribution_scores ["/a"; "/b"; "/a"] "count")
     <> Some (of_int (Z.of_nat (occurrences "/a" ["/a"; "/b"; "/a"])))
  /\ dict_get "/a" (calculate_attribution_scores ["/a"; "/a"] "position_based")
     <> Some (f0_4 + f0_4)%Qc.
Proof.
  split; [|split].
  - intros H. specialize (H ["/a"; "/a"] "count" "/a").
    assert (Hocc : (1 < occurrences "/a" ["/a"; "/a"])%nat) by (vm_compute; lia).
    apply H in Hocc. apply (f_equal (option_map this)) in Hocc.
    vm_compute in Hocc. discriminate Hocc.
  - intros H. apply (f_equal (option_map this)) in H.
    vm_compute in H. discriminate H.
  - intros H. apply (f_equal (option_map this)) in H.
    vm_compute in H. discriminate H.
Qed.

(** C2, amended. For every journey and every policy the returned mapping
    has one entry per URL, and its value is the credit of the last position
    the policy scores for that URL: an assignment replaces what was there,
    nothing is added up.  Under count a URL of the journey gets 1.0 whatever
    its occurrence count, and under position_based a URL that is both first
    and last of a 2-item journey gets 0.4. *)
Theorem repeated_url_last_credit (journey : list string) (method url : string) :
  NoDup (keys (calculate_attribution_scores journey method))
  /\ dict_get url (calculate_attribution_scores journey method)
     = last_credit url (position_credits method journey)
  /\ dict_get url (calculate_attribution_scores journey "count")
     = (if (occurrences url journey =? 0)%nat then None else Some f1_0)
  /\ calculate_attribution_scores [url; url] "position_based" = [(url, f0_4)].
Proof.
  split; [|split; [|split]].
  - rewrite scores_as_assignments. apply NoDup_keys_assign_all. constructor.
  - rewrite scores_as_assignments, dict_get_assign_all. unfold last_credit.
    now destruct (dict_get url (rev (position_credits method journey))).
  - rewrite scores_as_assignments, dict_get_assign_all.
    rewrite (position_credits_total f1_0) by reflexivity.
    rewrite <- map_rev, dict_get_constant, existsb_rev, occurrences_zero.
    now destruct (existsb (fun u => u =? url) journey).
  - unfold calculate_attribution_scores. simpl. now rewrite String.eqb_refl.
Qed.

(** ** Journeys without a repeated URL *)

Lemma position_credits_keys (method : string) (journey : list string) k :
  In k (map fst (position_credits method journey)) -> In k journey.
Proof.
  unfold position_credits. rewrite <- (map_snd_enumerate journey) at 2.
  generalize (len journey) (enumerate journey). intros n l.
  induction l as [|[i a] l IH]; simpl; auto.
  rewrite map_app, in_app_iff. intros [H|H]; auto.
  destruct (position_credit method n i); simpl in H; tauto.
Qed.

Lemma position_credits_NoDup (method : string) (journey : list string) :
  NoDup journey -> NoDup (map fst (position_credits method journey)).
Proof.
  unfold position_credits. rewrite <- (map_snd_enumerate journey) at 1.
  generalize (len journey) (enumerate journey). intros n l.
  induction l as [|[i a] l IH]; simpl; intros Hnd; [constructor|].
  inversion Hnd as [|? ? Ha Hnd']; subst.
  assert (Hsub : forall k,
             In k (map fst (flat_map
               (fun '(i, url) =>
                  match position_credit method n i with
                  | Some c => [(url, c)]
                  | None => []
                  end) l)) -> In k (map snd l)).
  { clear. induction l as [|[i a] l IH]; simpl; auto. intros k.
    rewrite map_app, in_app_iff. intros [H|H]; auto.
    destruct (position_credit method n i); simpl in H; tauto. }
  destruct (position_credit method n i); simpl; auto.
  constructor; auto.
Qed.

(** Without a repeated URL no assignment meets an earlier one: the mapping
    is the list of per-position credits. *)
Lemma scores_distinct (journey : list string) (method : string) :
  NoDup journey ->
  calculate_attribution_scores journey method = position_credits method journey.
Proof.
  intros Hnd. rewrite scores_as_assignments.
  rewrite assign_all_fresh; auto using position_credits_NoDup.
Qed.

Lemma position_credits_every (w : Z -> Qc) (method : string)
    (journey : list string) :
  (forall i, position_credit method (len journey) i = Some (w i)) ->
  position_credits method journey
  = map (fun p => (snd p, w (fst p))) (enumerate journey).
Proof.
  intros Hw. unfold position_credits.
  generalize (len journey) (enumerate journey) Hw. clear.
  intros n l Hw. induction l as [|[i a] l IH]; simpl; auto.
  now rewrite Hw, IH.
Qed.

Lemma nth_error_enumerate {A : Type} (l : list A) (i : nat) (a : A) :
  nth_error l i = Some a -> In (Z.of_nat i, a) (enumerate l).
Proof.
  revert i. induction l as [|b l IH]; intros [|i] H; simpl in H;
    try discriminate.
  - injection H as ->. rewrite enumerate_cons. now left.
  - rewrite enumerate_cons. right. apply in_map_iff.
    exists (Z.of_nat i, a). split; auto. simpl. f_equal. lia.
Qed.

Lemma dict_get_in {V : Type} (d : dict V) k v :
  NoDup (keys d) -> In (k, v) d -> dict_get k d = Some v.
Proof.
  induction d as [|[k' v'] d IH]; simpl; intros Hnd Hin; [tauto|].
  inversion Hnd as [|? ? Hk Hnd']; subst.
  destruct Hin as [E|Hin].
  - injection E as -> ->. now rewrite String.eqb_refl.
  - destruct (String.eqb_spec k k'); auto.
    subst. exfalso. apply Hk. now apply (in_map fst) in Hin.
Qed.

(** The credit found under a URL is the credit of the position it stands at. *)
Lemma score_at_position (journey : list string) (method : string)
    (i : nat) (url : string) :
  NoDup journey -> nth_error journey i = Some url ->
  dict_get url (calculate_attribution_scores journey method)
  = position_credit method (len journey) (Z.of_nat i).
Proof.
  intros Hnd Hnth. rewrite scores_distinct by assumption.
  pose proof (position_credits_NoDup method journey Hnd) as Hkeys.
  apply nth_error_enumerate in Hnth.
  assert (Hsnd : NoDup (map snd (enumerate journey)))
    by now rewrite map_snd_enumerate.
  unfold position_credits in *.
  revert Hnth Hsnd Hkeys.
  generalize (len journey) (enumerate journey). intros n l.
  induction l as [|[j a] l IH]; simpl; intros Hin Hsnd Hkeys; [tauto|].
  inversion Hsnd as [|? ? Ha Hsnd']; subst.
  destruct Hin as [E|Hin].
  - injection E as -> ->.
    destruct (position_credit method n (Z.of_nat i)) eqn:Ec; simpl.
    + now rewrite String.eqb_refl.
    + apply dict_get_None. intros Hk. apply Ha.
      clear - Hk. induction l as [|[j b] l IH]; simpl in *; auto.
      unfold keys in Hk. rewrite map_app, in_app_iff in Hk.
      destruct Hk as [Hk|Hk]; auto.
      destruct (position_credit method n j); simpl in Hk; tauto.
  - assert (Hne : url <> a).
    { intros ->. apply Ha. now apply (in_map snd) in Hin. }
    destruct (position_credit method n j) eqn:Ec; simpl.
    + simpl in Hkeys. inversion Hkeys; subst.
      destruct (String.eqb_spec url a); [contradiction|]. now apply IH.
    + now apply IH.
Qed.

Lemma keys_scores_every (w : Z -> Qc) (method : string) (journey : list string) :
  NoDup journey ->
  (forall i, position_credit method (len journey) i = Some (w i)) ->
  keys (calculate_attribution_scores journey method) = journey
  /\ values (calculate_attribution_scores journey method)
     = map w (range (len journey)).
Proof.
  intros Hnd Hw. rewrite scores_distinct by assumption.
  rewrite (position_credits_every w) by assumption.
  unfold keys, values. rewrite !map_map. simpl. split.
  - apply map_snd_enumerate.
  - rewrite <- map_fst_enumerate, map_map. reflexivity.
Qed.

(** C6. On a journey of distinct URLs position_based gives every URL its
    own entry: 1.0 to the only URL of a singleton; otherwise 0.4 to position
    0, 0.4 to position n-1 and 0.2 to every position in between.  In
    particular ["/a1","/a2","/a3"] yields 0.4, 0.2, 0.4. *)
Theorem position_based_credits (journey : list string) :
  NoDup journey ->
  keys (calculate_attribution_scores journey "position_based") = journey
  /\ (forall i url,
        nth_error journey i = Some url ->
        dict_get url (calculate_attribution_scores journey "position_based")
        = Some (if (List.length journey =? 1)%nat then f1_0
                else if (i =? 0)%nat then f0_4
                else if (i =? List.length journey - 1)%nat then f0_4
                else f0_2))
  /\ (forall url,
        calculate_attribution_scores [url] "position_based" = [(url, f1_0)])
  /\ calculate_attribution_scores ["/a1"; "/a2"; "/a3"] "position_based"
     = [("/a1", f0_4); ("/a2", f0_2); ("/a3", f0_4)].
Proof.
  intros Hnd. split; [|split; [|split]].
  - apply (keys_scores_every
             (fun i => if (len journey =? 1)%Z then f1_0
                       else if (i =? 0)%Z then f0_4
                       else if (i =? len journey - 1)%Z then f0_4
                       else f0_2)); auto.
    intros i. unfold position_credit. simpl.
    destruct (len journey =? 1)%Z; auto.
    destruct (i =? 0)%Z; auto.
    destruct (i =? len journey - 1)%Z; auto.
  - intros i url Hnth. rewrite (score_at_position _ _ i) by assumption.
    assert (Hi : (i < List.length journey)%nat).
    { apply nth_error_Some. congruence. }
    unfold position_credit, len. simpl.
    destruct (Z.eqb_spec (Z.of_nat (List.length journey)) 1),
             (Nat.eqb_spec (List.length journey) 1); try lia; auto.
    destruct (Z.eqb_spec (Z.of_nat i) 0), (Nat.eqb_spec i 0); try lia; auto.
    destruct (Z.eqb_spec (Z.of_nat i) (Z.of_nat (List.length journey) - 1)),
             (Nat.eqb_spec i (List.length journey - 1)); try lia; auto.
  - reflexivity.
  - reflexivity.
Qed.

Lemma position_based_credits_witness :
  NoDup ["/articles/x"; "/articles/y"; "/articles/z"; "/articles/w"]
  /\ dict_get "/articles/y"
       (calculate_attribution_scores
          ["/articles/x"; "/articles/y"; "/articles/z"; "/articles/w"]
          "position_based")
     = Some f0_2.
Proof.
  assert (Hnd : NoDup ["/articles/x"; "/articles/y"; "/articles/z";
                       "/articles/w"]).
  { repeat constructor; simpl; intuition discriminate. }
  split; [exact Hnd|].
  exact (proj1 (proj2 (position_based_credits _ Hnd)) 1%nat "/articles/y"
           eq_refl).
Defined.

(** C5. On a journey of n > 1 distinct URLs time_decay gives position i the
    credit 2^i over the sum of 2^j for j in [0, n-1]; the only URL of a
    singleton gets 1.0.  In particular ["/a1","/a2","/a3"] yields 1/7, 2/7,
    4/7. *)
Theorem time_decay_credits (journey : list string) :
  NoDup journey ->
  keys (calculate_attribution_scores journey "time_decay") = journey
  /\ (forall i url,
        nth_error journey i = Some url ->
        dict_get url (calculate_attribution_scores journey "time_decay")
        = Some (if (List.length journey =? 1)%nat then f1_0
                else truediv (2 ^ Z.of_nat i) (pow2_sum (List.length journey))))
  /\ (forall url,
        calculate_attribution_scores [url] "time_decay" = [(url, f1_0)])
  /\ calculate_attribution_scores ["/a1"; "/a2"; "/a3"] "time_decay"
     = [("/a1", truediv 1 7); ("/a2", truediv 2 7); ("/a3", truediv 4 7)].
Proof.
  intros Hnd. split; [|split; [|split]].
  - apply (keys_scores_every
             (fun i => if (len journey =? 1)%Z then f1_0
                       else truediv (2 ^ i)
                              (pow2_sum (Z.to_nat (len journey))))); auto.
    intros i. unfold position_credit. simpl.
    destruct (len journey =? 1)%Z; auto.
  - intros i url Hnth. rewrite (score_at_position _ _ i) by assumption.
    unfold position_credit, len. simpl. rewrite Nat2Z.id.
    destruct (Z.eqb_spec (Z.of_nat (List.length journey)) 1),
             (Nat.eqb_spec (List.length journey) 1); try lia; auto.
  - reflexivity.
  - reflexivity.
Qed.

Lemma time_decay_credits_witness :
  NoDup ["/articles/x"; "/articles/y"; "/articles/z"; "/articles/w"]
  /\ dict_get "/articles/z"
       (calculate_attribution_scores
          ["/articles/x"; "/articles/y"; "/articles/z"; "/articles/w"]
          "time_decay")
     = Some (truediv 4 15).
Proof.
  assert (Hnd : NoDup ["/articles/x"; "/articles/y"; "/articles/z";
                       "/articles/w"]).
  { repeat constructor; simpl; intuition discriminate. }
  split; [exact Hnd|].
  exact (proj1 (proj2 (time_decay_credits _ Hnd)) 2%nat "/articles/z" eq_refl).
Defined.

(** ** Sums of credits *)

Lemma f1_0_one : f1_0 = 1%Qc.
Proof. apply Qc_is_canon. reflexivity. Qed.

Lemma of_int_add (a b : Z) : of_int (a + b) = (of_int a + of_int b)%Qc.
Proof.
  unfold of_int, Qcplus. apply Q2Qc_eq_iff. cbn [this Q2Qc].
  rewrite !Qred_correct, inject_Z_plus. reflexivity.
Qed.

Lemma of_int_nonzero (a : Z) : a <> 0%Z -> of_int a <> Q2Qc 0.
Proof.
  intros Ha H. apply Q2Qc_eq_iff in H. apply Ha.
  unfold Qeq in H. simpl in H. lia.
Qed.

Lemma of_int_one : of_int 1 = 1%Qc.
Proof. reflexivity. Qed.

Lemma qsum_cons (x : Qc) (l : list Qc) : qsum (x :: l) = (x + qsum l)%Qc.
Proof. reflexivity. Qed.

Lemma qsum_app (l1 l2 : list Qc) : qsum (l1 ++ l2) = (qsum l1 + qsum l2)%Qc.
Proof.
  induction l1 as [|x l1 IH]; simpl.
  - now rewrite Qcplus_0_l.
  - rewrite IH. ring.
Qed.

Lemma qsum_constant {A : Type} (c : Qc) (l : list A) :
  qsum (map (fun _ => c) l) = (of_int (len l) * c)%Qc.
Proof.
  unfold len. induction l as [|a l IH].
  - simpl. change (of_int 0) with (Q2Qc 0). ring.
  - cbn [map List.length].
    rewrite qsum_cons, IH, Nat2Z.inj_succ, <- Z.add_1_r, of_int_add, of_int_one.
    ring.
Qed.

Lemma qsum_scaled (c : Qc) (l : list Z) :
  qsum (map (fun a => of_int a * c)%Qc l) = (of_int (sum l) * c)%Qc.
Proof.
  induction l as [|a l IH] using rev_ind.
  - simpl. change (of_int (sum [])) with (Q2Qc 0). ring.
  - rewrite map_app, qsum_app, IH, sum_app, of_int_add. simpl. ring.
Qed.

Lemma pow2_sum_pos (n : nat) : (0 < n)%nat -> (0 < pow2_sum n)%Z.
Proof.
  intros Hn. rewrite pow2_sum_closed.
  assert (2 ^ 1 <= 2 ^ Z.of_nat n)%Z by (apply Z.pow_le_mono_r; lia).
  simpl in *. lia.
Qed.

Lemma within_tolerance (d : dict Qc) : sum_values d = 1%Qc -> credit_conserved d.
Proof.
  unfold credit_conserved. intros ->. rewrite f1_0_one.
  replace (1 - 1)%Qc with (Q2Qc 0) by ring. discriminate.
Qed.

Lemma sum_values_first_touch (journey : list string) :
  journey <> [] ->
  sum_values (calculate_attribution_scores journey "first_touch") = 1%Qc.
Proof.
  destruct journey as [|first rest]; [congruence|]. intros _.
  apply Qc_is_canon. reflexivity.
Qed.

Lemma sum_values_last_touch (journey : list string) :
  journey <> [] ->
  sum_values (calculate_attribution_scores journey "last_touch") = 1%Qc.
Proof.
  destruct journey as [|first rest]; [congruence|]. intros _.
  apply Qc_is_canon. reflexivity.
Qed.

Lemma sum_values_linear (journey : list string) :
  journey <> [] -> NoDup journey ->
  sum_values (calculate_attribution_scores journey "linear") = 1%Qc.
Proof.
  intros Hne Hnd. unfold sum_values.
  destruct (keys_scores_every (fun _ => (f1_0 / of_int (len journey))%Qc)
              "linear" journey Hnd) as [_ ->]; [reflexivity|].
  rewrite qsum_constant, f1_0_one.
  assert (Hlen : len (range (len journey)) = len journey).
  { unfold range, len. now rewrite length_map, length_seq, Nat2Z.id. }
  rewrite Hlen. apply Qcmult_div_r. apply of_int_nonzero.
  unfold len. destruct journey; [congruence | simpl; lia].
Qed.

Lemma sum_values_time_decay (journey : list string) :
  journey <> [] -> NoDup journey ->
  sum_values (calculate_attribution_scores journey "time_decay") = 1%Qc.
Proof.
  intros Hne Hnd.
  destruct (len journey =? 1)%Z eqn:E1.
  - destruct journey as [|first rest]; [congruence|].
    apply len_one_singleton in E1. subst. apply Qc_is_canon. reflexivity.
  - unfold sum_values.
    destruct (keys_scores_every
                (fun i => truediv (2 ^ i) (pow2_sum (Z.to_nat (len journey))))
                "time_decay" journey Hnd) as [_ ->].
    { intros i. unfold position_credit. simpl. now rewrite E1. }
    set (T := pow2_sum (Z.to_nat (len journey))).
    unfold truediv, Qcdiv.
    rewrite <- (map_map (fun i => 2 ^ i)%Z (fun a => of_int a * / of_int T)%Qc).
    rewrite qsum_scaled, total_weight_pow2_sum. fold T.
    apply Qcmult_inv_r. apply of_int_nonzero.
    assert (0 < T)%Z; [|lia]. apply pow2_sum_pos.
    unfold len. rewrite Nat2Z.id. destruct journey; [congruence | simpl; lia].
Qed.

Lemma range_ends (m : nat) :
  range (Z.of_nat (S (S m)))
  = 0%Z :: map Z.of_nat (seq 1 m) ++ [Z.of_nat (S m)].
Proof.
  unfold range. rewrite Nat2Z.id, seq_S, map_app. reflexivity.
Qed.

Lemma sum_values_position_based (journey : list string) :
  NoDup journey -> (1 < len journey)%Z ->
  sum_values (calculate_attribution_scores journey "position_based")
  = (f0_4 + f0_4 + of_int (len journey - 2) * f0_2)%Qc.
Proof.
  intros Hnd Hlen. unfold sum_values.
  assert (E1 : (len journey =? 1)%Z = false) by (apply Z.eqb_neq; lia).
  destruct (keys_scores_every
              (fun i => if (i =? 0)%Z then f0_4
                        else if (i =? len journey - 1)%Z then f0_4 else f0_2)
              "position_based" journey Hnd) as [_ ->].
  { intros i. unfold position_credit. simpl. rewrite E1.
    destruct (i =? 0)%Z; auto. destruct (i =? len journey - 1)%Z; auto. }
  unfold len in *. destruct (List.length journey) as [|[|m]]; try lia.
  rewrite range_ends. cbn [map]. rewrite map_app, qsum_cons, qsum_app.
  cbn [map]. rewrite qsum_cons.
  rewrite (map_ext_in _ (fun _ => f0_2)).
  - rewrite qsum_constant. unfold len. rewrite length_map, length_seq.
    destruct (Z.eqb_spec (Z.of_nat (S m)) 0); [lia|].
    destruct (Z.eqb_spec (Z.of_nat (S m)) (Z.of_nat (S (S m)) - 1)); [|lia].
    replace (Z.of_nat (S (S m)) - 2)%Z with (Z.of_nat m) by lia.
    change (qsum []) with (Q2Qc 0). cbn [Z.eqb]. ring.
  - intros i Hi. apply in_map_iff in Hi as (k & <- & Hk). apply in_seq in Hk.
    destruct (Z.eqb_spec (Z.of_nat k) 0); [lia|].
    destruct (Z.eqb_spec (Z.of_nat k) (Z.of_nat (S (S m)) - 1)); [lia|].
    reflexivity.
Qed.

(** C1 as stated fails: position_based does not conserve credit on a journey
    of two distinct URLs, and linear does not on a journey with a repeated
    URL. *)
Lemma credit_not_conserved :
  ~ (forall journey method,
        journey <> [] -> normalized method = true ->
        credit_conserved (calculate_attribution_scores journey method))
  /\ ~ credit_conserved
         (calculate_attribution_scores ["/a"; "/b"] "position_based")
  /\ ~ credit_conserved
         (calculate_attribution_scores ["/a"; "/b"; "/a"] "linear").
Proof.
  assert (H2 : ~ credit_conserved
                 (calculate_attribution_scores ["/a"; "/b"] "position_based")).
  { intros H. vm_compute in H. apply H. reflexivity. }
  split; [|split].
  - intros H. apply H2. apply H; [discriminate | reflexivity].
  - exact H2.
  - intros H. vm_compute in H. apply H. reflexivity.
Qed.

(** C1, amended. For every non-empty journey the credits sum to 1.0 under
    first_touch and last_touch; when the URLs of the journey are pairwise
    distinct they sum to 1.0 under linear and time_decay, and under
    position_based when the journey has one or three items (with n > 1
    distinct items position_based hands out 0.4 + 0.4 + 0.2 (n - 2)). *)
Theorem credit_conservation (journey : list string) :
  journey <> [] ->
  credit_conserved (calculate_attribution_scores journey "first_touch")
  /\ credit_conserved (calculate_attribution_scores journey "last_touch")
  /\ (NoDup journey ->
      credit_conserved (calculate_attribution_scores journey "linear")
      /\ credit_conserved (calculate_attribution_scores journey "time_decay")
      /\ (len journey = 1%Z \/ len journey = 3%Z ->
          credit_conserved
            (calculate_attribution_scores journey "position_based"))
      /\ ((1 < len journey)%Z ->
          sum_values (calculate_attribution_scores journey "position_based")
          = (f0_4 + f0_4 + of_int (len journey - 2) * f0_2)%Qc)).
Proof.
  intros Hne. split; [|split].
  - apply within_tolerance. now apply sum_values_first_touch.
  - apply within_tolerance. now apply sum_values_last_touch.
  - intros Hnd. split; [|split; [|split]].
    + apply within_tolerance. now apply sum_values_linear.
    + apply within_tolerance. now apply sum_values_time_decay.
    + intros [H1|H3]; apply within_tolerance.
      * destruct journey as [|first rest]; [congruence|].
        assert (E : (len (first :: rest) =? 1)%Z = true) by now apply Z.eqb_eq.
        apply len_one_singleton in E. subst. apply Qc_is_canon. reflexivity.
      * rewrite sum_values_position_based by (auto; lia).
        rewrite H3. apply Qc_is_canon. reflexivity.
    + now apply sum_values_position_based.
Qed.

Lemma credit_conservation_witness :
  ["/a1"; "/a2"; "/a3"] <> []
  /\ NoDup ["/a1"; "/a2"; "/a3"]
  /\ credit_conserved
       (calculate_attribution_scores ["/a1"; "/a2"; "/a3"] "position_based")
  /\ credit_conserved
       (calculate_attribution_scores ["/a1"; "/a2"; "/a3"] "time_decay").
Proof.
  assert (Hne : ["/a1"; "/a2"; "/a3"] <> []) by discriminate.
  assert (Hnd : NoDup ["/a1"; "/a2"; "/a3"]).
  { repeat constructor; simpl; intuition discriminate. }
  destruct (credit_conservation ["/a1"; "/a2"; "/a3"] Hne) as (_ & _ & H).
  destruct (H Hnd) as (_ & Htd & Hpb & _).
  repeat split; auto.
Defined.

(** * Journey extraction: claims *)

(** C4, at a log that is not in time order.  The user's events in time
    order are b (t=1), register (t=3), a (t=5), so the journey is [b]; the
    code cuts at the index label before the registration's label, that is at
    the row of a, and returns b, the registration itself and a.  On a second
    log the label before the registration's is in no row and the slice
    raises [KeyError]. *)
Theorem journey_cut_by_label :
  registered late_logged_registration "u" = true
  /\ journey_of late_logged_registration "u" = ["/articles/b"]
  /\ extract_journeys (read_csv late_logged_registration)
     = Returned [("u", ["/articles/b"; "/register"; "/articles/a"])]
  /\ journey_of registration_logged_first "u" = ["/articles/a"; "/articles/b"]
  /\ extract_journeys (read_csv registration_logged_first)
     = Raised (KeyError (-1)).
Proof. repeat split; reflexivity. Qed.

(** C7, at a log that is not in time order.  The user's first event in time
    is the registration, so the user does not qualify; the code still
    records a journey for them, made of the registration and the article
    read after it, and the article is credited. *)
Theorem unqualified_user_has_journey :
  journey_of registration_is_first_event "u" = []
  /\ qualifies registration_is_first_event "u" = false
  /\ extract_journeys (read_csv registration_is_first_event)
     = Returned [("u", ["/register"; "/articles/a"])]
  /\ analyze_user_journeys registration_is_first_event "count"
     = Returned [mkRow "a" "/articles/a" (of_int 0 + f1_0)%Qc].
Proof. repeat split; reflexivity. Qed.

(** * Stable sorting *)

Section StableSort.
Context {A : Type} (leb : A -> A -> bool).

Lemma insert_by_perm (x : A) (l : list A) :
  Permutation (x :: l) (insert_by leb x l).
Proof.
  induction l as [|y l IH]; simpl; auto.
  destruct (leb x y); auto.
  rewrite perm_swap. now constructor.
Qed.

Lemma stable_sort_perm (l : list A) : Permutation l (stable_sort leb l).
Proof.
  induction l as [|x l IH]; simpl; auto.
  rewrite <- insert_by_perm. now constructor.
Qed.

Hypothesis leb_total : forall a b, leb a b = true \/ leb b a = true.
Hypothesis leb_trans :
  forall a b c, leb a b = true -> leb b c = true -> leb a c = true.

Lemma insert_by_sorted (x : A) (l : list A) :
  StronglySorted (fun a b => leb a b = true) l ->
  StronglySorted (fun a b => leb a b = true) (insert_by leb x l).
Proof.
  induction 1 as [|y l Hs IH Hy]; simpl.
  - repeat constructor.
  - destruct (leb x y) eqn:Exy.
    + constructor; [now constructor|]. constructor; auto.
      eapply Forall_impl; [|exact Hy]. intros; eauto.
    + constructor; auto.
      apply (Permutation_Forall (insert_by_perm x l)). constructor; auto.
      destruct (leb_total x y); congruence.
Qed.

Lemma stable_sort_sorted (l : list A) :
  StronglySorted (fun a b => leb a b = true) (stable_sort leb l).
Proof.
  induction l as [|x l IH]; simpl; [constructor|].
  now apply insert_by_sorted.
Qed.
End StableSort.

(** * Aggregation and ranking: claims *)

Lemma build_results_flat_map (article_scores : dict Qc) :
  build_results article_scores
  = flat_map
      (fun '(url, score) =>
         if prefix "/articles/" url
         then [mkRow (last (split slash url) "") url score]
         else [])
      article_scores.
Proof.
  unfold build_results, items.
  enough (Hacc : forall acc,
             fold_left
               (fun results '(url, score) =>
                  if prefix "/articles/" url
                  then results ++ [mkRow (last (split slash url) "") url score]
                  else results)
               article_scores acc
             = acc ++ flat_map
                 (fun '(url, score) =>
                    if prefix "/articles/" url
                    then [mkRow (last (split slash url) "") url score]
                    else [])
                 article_scores) by apply Hacc.
  induction article_scores as [|[url score] d IH]; intros acc; simpl.
  - now rewrite app_nil_r.
  - rewrite IH. destruct (prefix "/articles/" url); simpl; auto.
    now rewrite <- app_assoc.
Qed.

Lemma build_results_urls (article_scores : dict Qc) :
  map row_page_url (build_results article_scores)
  = filter (prefix "/articles/") (keys article_scores).
Proof.
  rewrite build_results_flat_map.
  induction article_scores as [|[url score] d IH]; simpl; auto.
  destruct (prefix "/articles/" url); simpl; now rewrite IH.
Qed.

Lemma total_leb_total (r1 r2 : InfluenceRow) :
  Qle_bool (total r2) (total r1) = true \/ Qle_bool (total r1) (total r2) = true.
Proof.
  rewrite !Qle_bool_iff.
  destruct (Qlt_le_dec (total r1) (total r2)); auto using Qlt_le_weak.
Qed.

Lemma total_leb_trans (r1 r2 r3 : InfluenceRow) :
  Qle_bool (total r2) (total r1) = true ->
  Qle_bool (total r3) (total r2) = true ->
  Qle_bool (total r3) (total r1) = true.
Proof. rewrite !Qle_bool_iff. intros; eapply Qle_trans; eauto. Qed.

Lemma StronglySorted_weaken {A : Type} (R R' : A -> A -> Prop) (l : list A) :
  (forall a b, R a b -> R' a b) -> StronglySorted R l -> StronglySorted R' l.
Proof.
  intros HR. induction 1 as [|a l Hs IH Ha]; constructor; auto.
  eapply Forall_impl; [|exact Ha]. auto.
Qed.

(** The frame handed back is the table of results, ranked. *)
Lemma analyze_returns (log : list Event) (method : string)
    (rows : list InfluenceRow) :
  analyze_user_journeys log method = Returned rows ->
  exists journeys article_scores,
    extract_journeys (read_csv log) = Returned journeys
    /\ aggregate journeys method = Returned article_scores
    /\ rows = sort_values_total_desc (build_results article_scores).
Proof.
  unfold analyze_user_journeys.
  destruct (extract_journeys (read_csv log)) as [journeys|e] eqn:Ej;
    [|discriminate].
  cbn [bind].
  destruct (aggregate journeys method) as [scores|e] eqn:Ea; [|discriminate].
  cbn [bind]. intros H. exists journeys, scores. repeat split; auto.
  destruct (build_results scores); now injection H as <-.
Qed.

(** X24. Whatever the kind of sort, the table returned after aggregation
    holds the rows of the aggregation (content URLs in the order in which
    the aggregation first met them), each once, sorted by total credit,
    larger totals first.  Nothing is said of rows with equal totals. *)
Theorem ranking_descending (log : list Event) (method : string)
    (rows : list InfluenceRow) :
  analyze_user_journeys log method = Returned rows ->
  exists journeys article_scores,
    extract_journeys (read_csv log) = Returned journeys
    /\ aggregate journeys method = Returned article_scores
    /\ map row_page_url (build_results article_scores)
       = filter (prefix "/articles/") (keys article_scores)
    /\ Permutation (build_results article_scores) rows
    /\ StronglySorted (fun r1 r2 => (total r2 <= total r1)%Qc) rows.
Proof.
  intros H. apply analyze_returns in H as (journeys & scores & Hj & Ha & ->).
  exists journeys, scores.
  split; [exact Hj|]. split; [exact Ha|].
  split; [apply build_results_urls|]. split; [apply stable_sort_perm|].
  eapply StronglySorted_weaken;
    [|apply stable_sort_sorted;
      [exact (fun a b => total_leb_total a b)
      |exact (fun a b c => total_leb_trans a b c)]].
  intros r1 r2 Hle. now apply Qle_bool_iff in Hle.
Qed.

Lemma ranking_descending_witness :
  analyze_user_journeys two_readers "count"
  = Returned [mkRow "b" "/articles/b" (of_int 0 + f1_0 + f1_0)%Qc;
              mkRow "a" "/articles/a" (of_int 0 + f1_0)%Qc;
              mkRow "c" "/articles/c" (of_int 0 + f1_0)%Qc]
  /\ StronglySorted (fun r1 r2 => (total r2 <= total r1)%Qc)
       [mkRow "b" "/articles/b" (of_int 0 + f1_0 + f1_0)%Qc;
        mkRow "a" "/articles/a" (of_int 0 + f1_0)%Qc;
        mkRow "c" "/articles/c" (of_int 0 + f1_0)%Qc].
Proof.
  assert (H : analyze_user_journeys two_readers "count"
              = Returned [mkRow "b" "/articles/b" (of_int 0 + f1_0 + f1_0)%Qc;
                          mkRow "a" "/articles/a" (of_int 0 + f1_0)%Qc;
                          mkRow "c" "/articles/c" (of_int 0 + f1_0)%Qc])
    by reflexivity.
  split; [exact H|].
  destruct (ranking_descending _ _ _ H) as (js & sc & _ & _ & _ & _ & Hs).
  exact Hs.
Defined.


(** ** The last segment of a URL *)

Lemma split_segments (sep : ascii) (s : string) :
  exists w ws,
    split sep s = w :: ws
    /\ contains sep w = false
    /\ ((ws = [] /\ s = w)
        \/ (ws <> []
            /\ contains sep (last ws "") = false
            /\ exists dir, s = (dir ++ String sep (last ws ""))%string)).
Proof.
  induction s as [|c s IH].
  - exists "", []. simpl. auto.
  - destruct IH as (w & ws & Es & Hw & Hcases). cbn [split]. rewrite Es.
    destruct (Ascii.eqb_spec c sep) as [->|Hc].
    + exists "", (w :: ws). repeat split; auto. right. split; [discriminate|].
      destruct Hcases as [[-> ->]|(Hne & Hl & dir & ->)].
      * simpl. split; auto. now exists "".
      * destruct ws as [|w' ws]; [congruence|].
        change (last (w :: w' :: ws) "") with (last (w' :: ws) "").
        split; auto. now exists (String sep dir).
    + exists (String c w), ws. repeat split; auto.
      * unfold contains in *. simpl. rewrite Hw.
        destruct (Ascii.eqb_spec sep c); [congruence | reflexivity].
      * destruct Hcases as [[-> ->]|(Hne & Hl & dir & ->)]; auto.
        right. repeat split; auto. now exists (String c dir).
Qed.

Lemma last_segment (sep : ascii) (s : string) :
  contains sep (last (split sep s) "") = false
  /\ (contains sep s = true ->
      exists dir, s = (dir ++ String sep (last (split sep s) ""))%string).
Proof.
  destruct (split_segments sep s) as (w & ws & -> & Hw & Hcases).
  destruct Hcases as [[-> ->]|(Hne & Hl & dir & E)].
  - simpl. split; auto. congruence.
  - destruct ws as [|w' ws]; [congruence|].
    change (last (w :: w' :: ws) "") with (last (w' :: ws) ""). eauto.
Qed.

Lemma prefix_articles_contains_slash (url : string) :
  prefix "/articles/" url = true -> contains slash url = true.
Proof.
  destruct url as [|c url]; [discriminate|].
  change (prefix "/articles/" (String c url))
    with (if ascii_dec "/" c then prefix "articles/" url else false).
  destruct (ascii_dec "/" c) as [<-|]; intros H; [reflexivity | discriminate].
Qed.

Lemma in_build_results (article_scores : dict Qc) (r : InfluenceRow) :
  In r (build_results article_scores) ->
  prefix "/articles/" (row_page_url r) = true
  /\ row_page_name r = last (split slash (row_page_url r)) "".
Proof.
  rewrite build_results_flat_map. intros H.
  apply in_flat_map in H as ([url score] & _ & H).
  destruct (prefix "/articles/" url) eqn:E; [|destruct H].
  destruct H as [<-|[]]. auto.
Qed.

(** ** The log's page names are never read *)

Lemma enumerate_map {A B : Type} (f : A -> B) (l : list A) :
  enumerate (map f l) = map (fun p => (fst p, f (snd p))) (enumerate l).
Proof.
  unfold enumerate. rewrite length_map.
  generalize (map Z.of_nat (seq 0 (List.length l))). intros ns. revert ns.
  induction l as [|a l IH]; intros [|n ns]; simpl; auto.
  now rewrite IH.
Qed.

Lemma filter_map_comm {A B : Type} (p : B -> bool) (f : A -> B) (l : list A) :
  filter p (map f l) = map f (filter (fun x => p (f x)) l).
Proof.
  induction l as [|a l IH]; simpl; auto.
  destruct (p (f a)); simpl; now rewrite IH.
Qed.

Lemma existsb_map_comm {A B : Type} (p : B -> bool) (f : A -> B) (l : list A) :
  existsb p (map f l) = existsb (fun x => p (f x)) l.
Proof. induction l as [|a l IH]; simpl; auto. now rewrite IH. Qed.

Lemma stable_sort_map {A B : Type} (leb : A -> A -> bool) (leb' : B -> B -> bool)
    (f : A -> B) (l : list A) :
  (forall a b, leb' (f a) (f b) = leb a b) ->
  stable_sort leb' (map f l) = map f (stable_sort leb l).
Proof.
  intros Hf. induction l as [|a l IH]; simpl; auto.
  fold (stable_sort leb' (map f l)) (stable_sort leb l). rewrite IH.
  generalize (stable_sort leb l). intros s.
  induction s as [|b s IHs]; simpl; auto.
  rewrite Hf. destruct (leb a b); simpl; auto. now rewrite IHs.
Qed.

Lemma for_each_ext {A S : Type} (f g : A -> S -> outcome S) (l : list A) (s : S) :
  (forall x s, f x s = g x s) -> for_each f l s = for_each g l s.
Proof.
  intros H. revert s. induction l as [|a l IH]; intros s; simpl; auto.
  rewrite H. destruct (g a s); simpl; auto.
Qed.

Section Rename.
Variable rename : Event -> string.

Lemma read_csv_rename (log : list Event) :
  read_csv (rename_pages rename log) = map (rename_row rename) (read_csv log).
Proof.
  unfold read_csv, rename_pages.
  exact (enumerate_map
           (fun e => mkEvent (rename e) (page_url e) (user_id e) (timestamp e))
           log).
Qed.

Lemma extract_user_rename (df : frame) (user : string)
    (journeys : dict (list string)) :
  extract_user (map (rename_row rename) df) user journeys = extract_user df user journeys.
Proof.
  unfold extract_user, sort_values_timestamp.
  rewrite filter_map_comm. cbn [rename_row snd user_id].
  rewrite (stable_sort_map
             (fun r1 r2 => (timestamp (snd r1) <=? timestamp (snd r2))%Z))
    by reflexivity.
  set (user_data :=
         stable_sort
           (fun r1 r2 => (timestamp (snd r1) <=? timestamp (snd r2))%Z)
           (filter (fun r => user_id (snd r) =? user) df)).
  rewrite existsb_map_comm, filter_map_comm.
  change (fun x => is_registration (rename_row rename x)) with is_registration.
  destruct (existsb is_registration user_data); cbn [negb]; auto.
  unfold loc_upto, index. rewrite !map_map. cbn [rename_row fst].
  destruct (map (fun x => fst x) (filter is_registration user_data))
    as [|registration_index labels]; auto.
  destruct (get_slice_bound_right (map (fun x => fst x) user_data)
              (registration_index - 1)) as [stop|e]; cbn [bind]; auto.
  rewrite firstn_map, map_map. reflexivity.
Qed.

Lemma extract_journeys_rename (log : list Event) :
  extract_journeys (read_csv (rename_pages rename log))
  = extract_journeys (read_csv log).
Proof.
  rewrite read_csv_rename. unfold extract_journeys.
  rewrite map_map. cbn [rename_row snd user_id].
  apply for_each_ext. intros; apply extract_user_rename.
Qed.
End Rename.

(** C10. Every row of the table returned by [analyze_user_journeys] carries
    as page_name the last '/'-separated segment of its page_url: the
    page_url is some directory part, a '/', and the page_name, which holds
    no '/'.  The page_name column of the log plays no part: rewriting it
    leaves the table unchanged. *)
Theorem page_name_from_url (log : list Event) (method : string)
    (rows : list InfluenceRow) :
  analyze_user_journeys log method = Returned rows ->
  (forall r,
      In r rows ->
      row_page_name r = last (split slash (row_page_url r)) ""
      /\ contains slash (row_page_name r) = false
      /\ exists dir,
           row_page_url r = (dir ++ String slash (row_page_name r))%string)
  /\ forall rename : Event -> string,
       analyze_user_journeys (rename_pages rename log) method = Returned rows.
Proof.
  intros H. split.
  - apply analyze_returns in H as (journeys & scores & _ & _ & ->).
    intros r Hr.
    apply (Permutation_in r (Permutation_sym (stable_sort_perm _ _))) in Hr.
    apply in_build_results in Hr as [Hprefix ->].
    destruct (last_segment slash (row_page_url r)) as [Hname Hdir].
    repeat split; auto.
    apply Hdir. now apply prefix_articles_contains_slash.
  - intros rename. rewrite <- H. unfold analyze_user_journeys.
    now rewrite extract_journeys_rename.
Qed.

Lemma page_name_from_url_witness :
  analyze_user_journeys
    [mkEvent "Front page" "/articles/2024/budget" "u1" 1;
     mkEvent "Register" "/register" "u1" 2] "linear"
  = Returned [mkRow "budget" "/articles/2024/budget"
                (of_int 0 + f1_0 / of_int 1)%Qc]
  /\ analyze_user_journeys
       (rename_pages (fun _ => "renamed")
          [mkEvent "Front page" "/articles/2024/budget" "u1" 1;
           mkEvent "Register" "/register" "u1" 2]) "linear"
     = Returned [mkRow "budget" "/articles/2024/budget"
                   (of_int 0 + f1_0 / of_int 1)%Qc].
Proof.
  assert (H : analyze_user_journeys
                [mkEvent "Front page" "/articles/2024/budget" "u1" 1;
                 mkEvent "Register" "/register" "u1" 2] "linear"
              = Returned [mkRow "budget" "/articles/2024/budget"
                            (of_int 0 + f1_0 / of_int 1)%Qc])
    by reflexivity.
  split; [exact H|].
  exact (proj2 (page_name_from_url _ _ _ H) (fun _ => "renamed")).
Defined.

(** * Journey extraction on logs kept in time order

    When the rows of every user stand in the log in time order, the labels
    of a user's sorted frame increase with the position, and the label slice
    of [extract_user] cuts where a positional slice would. *)

Lemma insert_by_head {A : Type} (leb : A -> A -> bool) (x : A) (l : list A) :
  match l with [] => True | y :: _ => leb x y = true end ->
  insert_by leb x l = x :: l.
Proof. destruct l as [|y l]; simpl; auto. now intros ->. Qed.

Lemma stable_sort_time_ordered (events : list Event) :
  time_ordered events = true -> by_time events = events.
Proof.
  unfold by_time. induction events as [|e1 rest IH]; auto.
  cbn [time_ordered stable_sort fold_right]. intros H.
  fold (stable_sort (fun e1 e2 => (timestamp e1 <=? timestamp e2)%Z) rest).
  destruct rest as [|e2 rest']; auto.
  apply andb_prop in H as [H12 Hrest]. rewrite IH by assumption.
  now apply insert_by_head.
Qed.

Lemma map_snd_filter_rows (p : Event -> bool) (df : frame) :
  map snd (filter (fun r => p (snd r)) df) = filter p (map snd df).
Proof.
  induction df as [|[i e] df IH]; simpl; auto.
  destruct (p e); simpl; now rewrite IH.
Qed.

Lemma user_rows_events (log : list Event) (user : string) :
  map snd (filter (fun r => user_id (snd r) =? user) (read_csv log))
  = user_events log user.
Proof.
  rewrite (map_snd_filter_rows (fun e => user_id e =? user)).
  unfold read_csv. now rewrite map_snd_enumerate.
Qed.

(** Sorting rows by time and sorting their events by time agree. *)
Lemma sort_rows_events (df : frame) :
  map snd (sort_values_timestamp df) = by_time (map snd df).
Proof.
  unfold sort_values_timestamp, by_time. symmetry.
  now apply stable_sort_map.
Qed.

Lemma sort_rows_time_ordered (df : frame) :
  time_ordered (map snd df) = true -> sort_values_timestamp df = df.
Proof.
  unfold sort_values_timestamp. induction df as [|r1 rest IH]; auto.
  cbn [map time_ordered stable_sort fold_right]. intros H.
  fold (stable_sort
          (fun r1 r2 => (timestamp (snd r1) <=? timestamp (snd r2))%Z) rest).
  destruct rest as [|r2 rest']; auto.
  cbn [map] in H. apply andb_prop in H as [H12 Hrest].
  rewrite IH by assumption. now apply insert_by_head.
Qed.

Lemma increasing_range (k n : nat) : increasing (map Z.of_nat (seq k n)).
Proof.
  unfold increasing. revert k.
  induction n as [|n IH]; intros k; simpl; constructor; [apply IH|].
  apply Forall_forall. intros x Hx. apply in_map_iff in Hx as (m & <- & Hm).
  apply in_seq in Hm. lia.
Qed.

Lemma increasing_read_csv (log : list Event) : increasing (index (read_csv log)).
Proof.
  unfold index, read_csv. rewrite map_fst_enumerate. apply increasing_range.
Qed.

Lemma increasing_filter (p : Z * Event -> bool) (df : frame) :
  increasing (index df) -> increasing (index (filter p df)).
Proof.
  unfold increasing, index. induction df as [|r df IH]; simpl; auto.
  intros H. inversion H as [|? ? Hs Hall]; subst.
  destruct (p r); simpl; auto. constructor; auto.
  rewrite Forall_forall in *. intros x Hx. apply Hall.
  apply in_map_iff in Hx as (r' & <- & Hr'). apply filter_In in Hr' as [Hr' _].
  now apply in_map.
Qed.

Lemma increasing_monotonic (labels : list Z) :
  increasing labels -> is_monotonic_increasing labels = true.
Proof.
  induction 1 as [|a l Hs IH Ha]; auto.
  cbn [is_monotonic_increasing]. destruct l as [|b l]; auto.
  rewrite IH, andb_true_r. inversion Ha; subst. apply Z.leb_le. lia.
Qed.

Lemma searchsorted_all_above (labels : list Z) (x : Z) :
  Forall (fun l => (x < l)%Z) labels -> searchsorted_right labels x = 0%nat.
Proof.
  unfold searchsorted_right. induction 1 as [|l labels Hl _ IH]; auto.
  simpl. destruct (Z.leb_spec l x); [lia | exact IH].
Qed.

(** On increasing labels the end of a label slice is found by counting,
    whether the label is present or not. *)
Lemma slice_bound_increasing (labels : list Z) (x : Z) :
  increasing labels ->
  get_slice_bound_right labels x = Returned (searchsorted_right labels x).
Proof.
  intros Hinc. unfold get_slice_bound_right.
  rewrite (increasing_monotonic _ Hinc).
  destruct (get_loc x labels) as [pos|] eqn:Eloc; auto. f_equal.
  revert pos Eloc. induction Hinc as [|a l Hs IH Ha]; intros pos Eloc;
    [discriminate|].
  cbn [get_loc] in Eloc. unfold searchsorted_right in *. cbn [filter].
  destruct (Z.eqb_spec a x) as [->|Hne].
  - injection Eloc as <-. rewrite Z.leb_refl. cbn [List.length]. f_equal.
    symmetry. apply (searchsorted_all_above l x). exact Ha.
  - destruct (get_loc x l) as [p|] eqn:El; [|discriminate].
    injection Eloc as <-. specialize (IH p eq_refl).
    assert (Hin : In x l).
    { clear - El. revert p El. induction l as [|b l IHl]; intros p El;
        [discriminate|]. cbn [get_loc] in El.
      destruct (Z.eqb_spec b x); [left; auto|].
      destruct (get_loc x l); [|discriminate]. right. eauto. }
    rewrite Forall_forall in Ha. specialize (Ha x Hin).
    destruct (Z.leb_spec a x); [|lia]. cbn [List.length]. now f_equal.
Qed.

Lemma searchsorted_cons (l : Z) (labels : list Z) (x : Z) :
  searchsorted_right (l :: labels) x
  = if (l <=? x)%Z then S (searchsorted_right labels x)
    else searchsorted_right labels x.
Proof. unfold searchsorted_right. simpl. now destruct (l <=? x)%Z. Qed.

(** On increasing labels, counting the labels below the first
    registration's label finds the rows before that registration. *)
Lemma cut_at_registration (user_data : frame) :
  increasing (index user_data) ->
  match index (filter is_registration user_data) with
  | [] => existsb is_registration user_data = false
  | registration_index :: _ =>
      existsb is_registration user_data = true
      /\ map (fun r => page_url (snd r))
           (firstn (searchsorted_right (index user_data)
                      (registration_index - 1)) user_data)
         = before_registration (map snd user_data)
  end.
Proof.
  induction user_data as [|[i e] ud IH]; [reflexivity|].
  unfold increasing, index. cbn [map fst]. intros Hinc.
  inversion Hinc as [|? ? Hs Hall]; subst.
  cbn [filter existsb before_registration map snd].
  change (is_registration (i, e)) with (page_url e =? "/register").
  destruct (page_url e =? "/register") eqn:Ereg.
  - cbn [index map fst orb]. split; auto.
    rewrite searchsorted_cons. destruct (Z.leb_spec i (i - 1)); [lia|].
    rewrite searchsorted_all_above; auto.
    eapply Forall_impl; [|exact Hall]. simpl. intros; lia.
  - cbn [orb]. specialize (IH Hs). unfold index in *.
    destruct (map fst (filter is_registration ud)) as [|L rest] eqn:Efilter;
      [exact IH|].
    destruct IH as [Hex Hcut]. split; auto.
    assert (HL : In L (map fst ud)).
    { assert (Hin : In L (map fst (filter is_registration ud)))
        by (rewrite Efilter; now left).
      apply in_map_iff in Hin as (r & <- & Hr).
      apply filter_In in Hr as [Hr _]. now apply in_map. }
    rewrite Forall_forall in Hall. specialize (Hall L HL).
    rewrite searchsorted_cons. destruct (Z.leb_spec i (L - 1)); [|lia].
    cbn [firstn map snd]. f_equal. exact Hcut.
Qed.

(** One round of the extraction loop, for a user whose rows stand in the log
    in time order: the user gets the journey of the spec when they qualify
    and nothing otherwise. *)
Lemma extract_user_time_ordered (log : list Event) (user : string)
    (journeys : dict (list string)) :
  time_ordered (user_events log user) = true ->
  extract_user (read_csv log) user journeys
  = Returned (if qualifies log user
              then dict_set user (journey_of log user) journeys
              else journeys).
Proof.
  intros Hord. unfold extract_user, qualifies, journey_of, registered.
  rewrite (stable_sort_time_ordered _ Hord).
  set (rows := filter (fun r => user_id (snd r) =? user) (read_csv log)).
  assert (Hrows : map snd rows = user_events log user)
    by apply user_rows_events.
  rewrite sort_rows_time_ordered by now rewrite Hrows.
  assert (Hinc : increasing (index rows)).
  { apply increasing_filter, increasing_read_csv. }
  pose proof (cut_at_registration rows Hinc) as Hcut.
  rewrite <- Hrows, existsb_map_comm.
  change (fun x => page_url (snd x) =? "/register") with is_registration.
  destruct (index (filter is_registration rows)) as [|L rest].
  - rewrite Hcut. reflexivity.
  - destruct Hcut as [-> Hcut]. cbn [negb andb]. unfold loc_upto.
    rewrite slice_bound_increasing by assumption. cbn [bind].
    rewrite Hcut. now destruct (before_registration (map snd rows)).
Qed.

Lemma for_each_returns {A S : Type} (body : A -> S -> outcome S)
    (step : A -> S -> S) (l : list A) (s : S) :
  (forall x s, body x s = Returned (step x s)) ->
  for_each body l s = Returned (fold_left (fun s x => step x s) l s).
Proof.
  intros H. revert s. induction l as [|a l IH]; intros s; simpl; auto.
  rewrite H. simpl. apply IH.
Qed.

Lemma in_unique (x : string) (l : list string) : In x (unique l) <-> In x l.
Proof.
  induction l as [|a l IH]; simpl; [tauto|].
  rewrite filter_In, IH. destruct (String.eqb_spec x a).
  - subst. tauto.
  - simpl. intuition congruence.
Qed.







(** * Journey extraction on every log *)

Lemma for_each_invariant {A S : Type} (P : S -> Prop)
    (body : A -> S -> outcome S) (l : list A) (s s' : S) :
  (forall x s s', P s -> body x s = Returned s' -> P s') ->
  P s -> for_each body l s = Returned s' -> P s'.
Proof.
  intros Hbody. revert s. induction l as [|a l IH]; intros s Hs; simpl.
  - now intros [= <-].
  - destruct (body a s) as [s1|e] eqn:Ea; simpl; [|discriminate].
    apply IH. eauto.
Qed.

(** A round of the loop leaves the mapping as it is or records a non-empty
    journey for a user who has a registration row. *)
Lemma extract_user_cases (df : frame) (user : string)
    (journeys journeys' : dict (list string)) :
  extract_user df user journeys = Returned journeys' ->
  journeys' = journeys
  \/ exists journey,
       journey <> []
       /\ journeys' = dict_set user journey journeys
       /\ existsb is_registration
            (sort_values_timestamp
               (filter (fun r => user_id (snd r) =? user) df)) = true.
Proof.
  unfold extract_user.
  destruct (existsb is_registration _) eqn:Ereg; cbn [negb].
  - destruct (index _) as [|registration_index rest]; [discriminate|].
    destruct (loc_upto _ _) as [rows|e]; cbn [bind]; [|discriminate].
    destruct (map _ rows) as [|url urls] eqn:Erows.
    + intros [= <-]. now left.
    + intros [= <-]. right. exists (url :: urls). repeat split; auto.
      discriminate.
  - intros [= <-]. now left.
Qed.

Lemma in_dict_set {V : Type} (k k' : string) (v v' : V) (d : dict V) :
  In (k', v') (dict_set k v d) -> (k', v') = (k, v) \/ In (k', v') d.
Proof.
  induction d as [|[k0 v0] d IH]; simpl.
  - intros [H|[]]; auto.
  - destruct (String.eqb_spec k k0); simpl.
    + subst. intros [H|H]; auto.
    + intros [H|H]; auto. apply IH in H. tauto.
Qed.

Lemma existsb_perm {A : Type} (p : A -> bool) (l l' : list A) :
  Permutation l l' -> existsb p l = existsb p l'.
Proof.
  induction 1; simpl; auto.
  - now f_equal.
  - destruct (p x), (p y); auto.
  - congruence.
Qed.

Lemma registration_row_registered (log : list Event) (user : string) :
  existsb is_registration
    (sort_values_timestamp
       (filter (fun r => user_id (snd r) =? user) (read_csv log)))
  = registered log user.
Proof.
  unfold sort_values_timestamp.
  rewrite <- (existsb_perm _ _ _ (stable_sort_perm _ _)).
  unfold registered. rewrite <- user_rows_events, existsb_map_comm.
  reflexivity.
Qed.

(** X23. On every log on which the extraction returns, a user without a
    registration event gets no journey, and no recorded journey is empty. *)
Theorem extraction_excludes (log : list Event) (journeys : dict (list string)) :
  extract_journeys (read_csv log) = Returned journeys ->
  (forall user, registered log user = false -> dict_get user journeys = None)
  /\ (forall user journey, In (user, journey) journeys -> journey <> []).
Proof.
  intros H. split.
  - intros user Hreg. revert H. unfold extract_journeys.
    apply (for_each_invariant (fun js => dict_get user js = None));
      [|reflexivity].
    intros u js js' Hjs Hu.
    apply extract_user_cases in Hu as [->|(j & _ & -> & Hrow)]; auto.
    rewrite registration_row_registered in Hrow.
    rewrite dict_get_set_other; auto. congruence.
  - revert H. unfold extract_journeys.
    apply (for_each_invariant
             (fun js => forall user journey,
                  In (user, journey) js -> journey <> [])).
    + intros u js js' Hjs Hu user journey Hin.
      apply extract_user_cases in Hu as [->|(j & Hj & -> & _)]; eauto.
      apply in_dict_set in Hin as [[= -> ->]|Hin]; eauto.
    + intros user journey [].
Qed.

Lemma extraction_excludes_witness :
  extract_journeys (read_csv registration_is_first_event)
  = Returned [("u", ["/register"; "/articles/a"])]
  /\ dict_get "v" [("u", ["/register"; "/articles/a"])] = None.
Proof.
  assert (H : extract_journeys (read_csv registration_is_first_event)
              = Returned [("u", ["/register"; "/articles/a"])])
    by reflexivity.
  split; [exact H|].
  exact (proj1 (extraction_excludes _ _ H) "v" eq_refl).
Defined.

(** * More on the scorer *)

Lemma in_dict_set_inv {V : Type} (k k' : string) (v v' : V) (d : dict V) :
  In (k', v') (dict_set k v d) -> (k' = k /\ v' = v) \/ In (k', v') d.
Proof.
  intros H. apply in_dict_set in H as [[= -> ->]|H]; auto.
Qed.

Lemma in_assign_all {V : Type} (kvs : list (string * V)) (d : dict V) k v :
  In (k, v) (assign_all kvs d) -> In (k, v) kvs \/ In (k, v) d.
Proof.
  revert d. induction kvs as [|[k0 v0] kvs IH]; intros d; simpl; auto.
  intros H. apply IH in H as [H|H]; auto.
  apply in_dict_set_inv in H as [[-> ->]|H]; auto.
Qed.

Lemma filter_filter {A : Type} (p q : A -> bool) (l : list A) :
  filter p (filter q l) = filter (fun x => q x && p x) l.
Proof.
  induction l as [|a l IH]; simpl; auto.
  destruct (q a); simpl; [destruct (p a)|]; now rewrite IH.
Qed.

Lemma absent_from_spec (ks : list string) (k : string) :
  absent_from ks k = true <-> ~ In k ks.
Proof.
  unfold absent_from. rewrite negb_true_iff, <- not_true_iff_false.
  rewrite existsb_exists. split.
  - intros H Hin. apply H. exists k. split; auto. apply String.eqb_refl.
  - intros H (x & Hx & E). apply String.eqb_eq in E. subst. auto.
Qed.

(** The keys of a dictionary after a run of assignments: the old keys, then
    the new ones in the order in which they were first assigned. *)
Lemma keys_assign_all {V : Type} (kvs : list (string * V)) (d : dict V) :
  keys (assign_all kvs d)
  = keys d ++ filter (absent_from (keys d)) (unique (map fst kvs)).
Proof.
  revert d. induction kvs as [|[k v] kvs IH]; intros d.
  - simpl. now rewrite app_nil_r.
  - cbn [assign_all fold_left fst snd]. fold (assign_all kvs (dict_set k v d)).
    rewrite IH, keys_set. cbn [map fst unique filter].
    destruct (in_dec string_dec k (keys d)) as [Hin|Hout].
    + assert (E : absent_from (keys d) k = false).
      { apply not_true_iff_false. rewrite absent_from_spec. tauto. }
      rewrite E, filter_filter. f_equal. apply filter_ext. intros x.
      destruct (String.eqb_spec x k) as [->|]; simpl; auto.
    + assert (E : absent_from (keys d) k = true) by now apply absent_from_spec.
      rewrite E, <- app_assoc, filter_filter. simpl. do 2 f_equal.
      apply filter_ext. intros x. unfold absent_from.
      rewrite existsb_app. simpl. rewrite orb_false_r, negb_orb.
      now rewrite andb_comm.
Qed.

Lemma filter_all {A : Type} (p : A -> bool) (l : list A) :
  (forall x, In x l -> p x = true) -> filter p l = l.
Proof.
  induction l as [|a l IH]; simpl; intros H; auto.
  rewrite H by auto. f_equal. auto.
Qed.

Lemma keys_assign_all_empty {V : Type} (kvs : list (string * V)) :
  keys (assign_all kvs []) = unique (map fst kvs).
Proof. rewrite keys_assign_all. simpl. now apply filter_all. Qed.

Lemma position_credits_keys_every (method : string) (journey : list string) :
  (forall i, position_credit method (len journey) i <> None) ->
  map fst (position_credits method journey) = journey.
Proof.
  intros Hw. unfold position_credits.
  rewrite <- (map_snd_enumerate journey) at 2.
  generalize (len journey) (enumerate journey) Hw. clear.
  intros n l Hw. induction l as [|[i a] l IH]; simpl; auto.
  specialize (Hw i). destruct (position_credit method n i); [|congruence].
  simpl. now rewrite IH.
Qed.

Lemma constant_dict (w : Qc) (d : dict Qc) :
  (forall k v, In (k, v) d -> v = w) -> d = map (fun k => (k, w)) (keys d).
Proof.
  induction d as [|[k v] d IH]; simpl; intros H; auto.
  rewrite (H k v) by auto. f_equal. apply IH. intros; eapply H; eauto.
Qed.

(** X1. For every non-empty journey, repeated URLs or not, first_touch
    returns the one-entry mapping that gives 1.0 to the first URL and
    last_touch the one that gives 1.0 to the last URL. *)
Theorem single_touch_mapping (journey : list string) (first last_url : string) :
  hd_error journey = Some first ->
  hd_error (rev journey) = Some last_url ->
  calculate_attribution_scores journey "first_touch" = [(first, f1_0)]
  /\ calculate_attribution_scores journey "last_touch" = [(last_url, f1_0)].
Proof.
  destruct journey as [|a rest]; [discriminate|]. intros [= ->] Hlast. split.
  - reflexivity.
  - unfold calculate_attribution_scores. simpl String.eqb. cbn [dict_set].
    do 2 f_equal. destruct (exists_last (l := first :: rest)) as (l & x & E);
      [discriminate|].
    rewrite E in *. rewrite last_last. rewrite rev_app_distr in Hlast.
    simpl in Hlast. congruence.
Qed.

Lemma single_touch_mapping_witness :
  calculate_attribution_scores ["/a"; "/b"; "/a"; "/c"] "first_touch"
  = [("/a", f1_0)]
  /\ calculate_attribution_scores ["/a"; "/b"; "/a"; "/c"] "last_touch"
     = [("/c", f1_0)].
Proof.
  exact (single_touch_mapping ["/a"; "/b"; "/a"; "/c"] "/a" "/c"
           eq_refl eq_refl).
Defined.

Lemma scores_constant (w : Qc) (method : string) (journey : list string) :
  (forall i, position_credit method (len journey) i = Some w) ->
  calculate_attribution_scores journey method
  = map (fun url => (url, w)) (unique journey).
Proof.
  intros Hw. rewrite scores_as_assignments.
  rewrite (constant_dict w (assign_all (position_credits method journey) [])).
  - rewrite keys_assign_all_empty, (position_credits_total w) by assumption.
    rewrite map_map. simpl. now rewrite map_id.
  - intros k v Hin. apply in_assign_all in Hin as [Hin|[]].
    rewrite (position_credits_total w) in Hin by assumption.
    apply in_map_iff in Hin as (u & [= _ <-] & _). reflexivity.
Qed.

(** X2. On every journey, count and linear give each distinct URL one
    entry, in order of first appearance, all with the same credit: 1.0
    under count, 1.0 / len(journey) under linear, however often a URL
    occurs. *)
Theorem uniform_policies (journey : list string) :
  calculate_attribution_scores journey "count"
  = map (fun url => (url, f1_0)) (unique journey)
  /\ calculate_attribution_scores journey "linear"
     = map (fun url => (url, (f1_0 / of_int (len journey))%Qc))
         (unique journey).
Proof. split; now apply scores_constant. Qed.

(** X3. Under count, linear, position_based and time_decay the keys of the
    returned mapping are the distinct URLs of the journey in order of first
    appearance; under every policy name a key is a URL of the journey. *)
Theorem scored_urls (journey : list string) (method : string) :
  (existsb (String.eqb method)
     ["count"; "linear"; "position_based"; "time_decay"] = true ->
   keys (calculate_attribution_scores journey method) = unique journey)
  /\ (forall url,
        In url (keys (calculate_attribution_scores journey method)) ->
        In url journey).
Proof.
  split.
  - intros Hm. rewrite scores_as_assignments, keys_assign_all_empty.
    f_equal. apply position_credits_keys_every. intros i.
    unfold position_credit. simpl in Hm.
    destruct (method =? "count"); [discriminate|].
    destruct (method =? "first_touch") eqn:E1.
    { apply String.eqb_eq in E1. subst. discriminate Hm. }
    destruct (method =? "last_touch") eqn:E2.
    { apply String.eqb_eq in E2. subst. discriminate Hm. }
    destruct (method =? "linear"); [discriminate|].
    destruct (method =? "position_based").
    { destruct (len journey =? 1)%Z; [discriminate|].
      destruct (i =? 0)%Z; [discriminate|].
      destruct (i =? len journey - 1)%Z; discriminate. }
    destruct (method =? "time_decay"); [|discriminate Hm].
    destruct (len journey =? 1)%Z; discriminate.
  - intros url Hin. rewrite scores_as_assignments, keys_assign_all_empty in Hin.
    apply (proj1 (in_unique _ _)) in Hin.
    now apply position_credits_keys in Hin.
Qed.

Lemma scored_urls_witness :
  keys (calculate_attribution_scores ["/a"; "/b"; "/a"; "/c"] "time_decay")
  = ["/a"; "/b"; "/c"].
Proof.
  exact (proj1 (scored_urls ["/a"; "/b"; "/a"; "/c"] "time_decay") eq_refl).
Defined.

(** ** Bounds on credits *)

Lemma truediv_this (a b : Z) :
  (this (truediv a b) == inject_Z a / inject_Z b)%Q.
Proof.
  unfold truediv, of_int, Qcdiv, Qcmult, Qcinv, Q2Qc. cbn [this].
  now rewrite !Qred_correct.
Qed.

Lemma truediv_bounds (a b : Z) :
  (0 < a <= b)%Z -> (Q2Qc 0 < truediv a b)%Qc /\ (truediv a b <= 1)%Qc.
Proof.
  intros [Ha Hab]. unfold Qclt, Qcle. rewrite truediv_this.
  change (this (Q2Qc 0)) with 0%Q. change (this 1%Qc) with 1%Q.
  assert (Hb : (0 < inject_Z b)%Q).
  { change 0%Q with (inject_Z 0). rewrite <- Zlt_Qlt. lia. }
  split.
  - apply Qlt_shift_div_l; auto. rewrite Qmult_0_l.
    change 0%Q with (inject_Z 0). rewrite <- Zlt_Qlt. lia.
  - apply Qle_shift_div_r; auto. rewrite Qmult_1_l, <- Zle_Qle. lia.
Qed.

Lemma pow2_le_pow2_sum (n : nat) (i : Z) :
  (0 <= i < Z.of_nat n)%Z -> (0 < 2 ^ i <= pow2_sum n)%Z.
Proof.
  intros Hi. rewrite pow2_sum_closed. split; [apply Z.pow_pos_nonneg; lia|].
  assert (H : (2 ^ (i + 1) <= 2 ^ Z.of_nat n)%Z)
    by (apply Z.pow_le_mono_r; lia).
  rewrite Z.pow_add_r in H by lia. simpl in H. lia.
Qed.

Lemma position_credit_bounds (method : string) (n i : Z) (v : Qc) :
  (0 <= i < n)%Z -> position_credit method n i = Some v ->
  (Q2Qc 0 < v)%Qc /\ (v <= 1)%Qc.
Proof.
  intros Hi. unfold position_credit.
  assert (H1 : (Q2Qc 0 < f1_0)%Qc /\ (f1_0 <= 1)%Qc)
    by (split; [reflexivity | discriminate]).
  assert (H4 : (Q2Qc 0 < f0_4)%Qc /\ (f0_4 <= 1)%Qc)
    by (split; [reflexivity | discriminate]).
  assert (H2 : (Q2Qc 0 < f0_2)%Qc /\ (f0_2 <= 1)%Qc)
    by (split; [reflexivity | discriminate]).
  destruct (method =? "count"); [now intros [= <-]|].
  destruct (method =? "first_touch").
  { destruct (i =? 0)%Z; [now intros [= <-] | discriminate]. }
  destruct (method =? "last_touch").
  { destruct (i =? n - 1)%Z; [now intros [= <-] | discriminate]. }
  destruct (method =? "linear").
  { intros [= <-]. rewrite f1_0_one, <- of_int_one.
    apply (truediv_bounds 1 n). lia. }
  destruct (method =? "position_based").
  { destruct (n =? 1)%Z; [now intros [= <-]|].
    destruct (i =? 0)%Z; [now intros [= <-]|].
    destruct (i =? n - 1)%Z; now intros [= <-]. }
  destruct (method =? "time_decay"); [|discriminate].
  destruct (n =? 1)%Z; [now intros [= <-]|].
  intros [= <-]. apply truediv_bounds, pow2_le_pow2_sum. lia.
Qed.

Lemma dict_get_Some_in {V : Type} (d : dict V) k v :
  dict_get k d = Some v -> In (k, v) d.
Proof.
  induction d as [|[k' v'] d IH]; simpl; [discriminate|].
  destruct (String.eqb_spec k k').
  - intros [= ->]. subst. now left.
  - intros H. right. auto.
Qed.

Lemma in_position_credits (method : string) (journey : list string) k v :
  In (k, v) (position_credits method journey) ->
  exists i, In (i, k) (enumerate journey)
            /\ position_credit method (len journey) i = Some v.
Proof.
  unfold position_credits. intros H.
  apply in_flat_map in H as ([i a] & Hin & H).
  destruct (position_credit method (len journey) i) eqn:E; [|destruct H].
  destruct H as [[= -> ->]|[]]. eauto.
Qed.

(** X4. Whatever the journey and the policy name, every credit in the
    returned mapping lies between 0.0 and 1.0, both included. *)
Theorem credit_bounds (journey : list string) (method url : string) (v : Qc) :
  dict_get url (calculate_attribution_scores journey method) = Some v ->
  (Q2Qc 0 <= v)%Qc /\ (v <= 1)%Qc.
Proof.
  intros H. apply dict_get_Some_in in H.
  rewrite scores_as_assignments in H. apply in_assign_all in H as [H|[]].
  apply in_position_credits in H as (i & Hin & Hv).
  apply in_enumerate_bounds in Hin.
  destruct (position_credit_bounds _ _ _ _ Hin Hv) as [Hpos Hle].
  split; [now apply Qclt_le_weak | exact Hle].
Qed.

Lemma credit_bounds_witness :
  dict_get "/b" (calculate_attribution_scores ["/a"; "/b"; "/c"] "time_decay")
  = Some (truediv 2 7)
  /\ (Q2Qc 0 <= truediv 2 7)%Qc /\ (truediv 2 7 <= 1)%Qc.
Proof.
  split; [reflexivity|].
  exact (credit_bounds ["/a"; "/b"; "/c"] "time_decay" "/b" (truediv 2 7)
           eq_refl).
Defined.

(** ** Linear credit and repeated URLs *)

Lemma filter_length_all {A : Type} (p : A -> bool) (l : list A) :
  List.length (filter p l) = List.length l ->
  forall x, In x l -> p x = true.
Proof.
  induction l as [|a l IH]; simpl; [tauto|].
  pose proof (filter_length_le p l) as Hle.
  destruct (p a) eqn:Ea; simpl; intros Hlen x [<-|Hx]; auto; try lia.
Qed.

Lemma unique_length_le (l : list string) :
  (List.length (unique l) <= List.length l)%nat.
Proof.
  induction l as [|a l IH]; simpl; auto.
  pose proof (filter_length_le (fun y => negb (y =? a)) (unique l)). lia.
Qed.

Lemma unique_NoDup_id (l : list string) : NoDup l -> unique l = l.
Proof.
  induction 1 as [|a l Ha Hnd IH]; simpl; auto.
  rewrite IH. f_equal. apply filter_all. intros x Hx.
  destruct (String.eqb_spec x a); [subst; contradiction | reflexivity].
Qed.

Lemma unique_full_length (l : list string) :
  List.length (unique l) = List.length l -> NoDup l.
Proof.
  induction l as [|a l IH]; simpl; [constructor|]. intros Hlen.
  pose proof (filter_length_le (fun y => negb (y =? a)) (unique l)) as H1.
  pose proof (unique_length_le l) as H2.
  constructor.
  - intros Hin. apply in_unique in Hin.
    assert (Hf : List.length (filter (fun y => negb (y =? a)) (unique l))
                 = List.length (unique l)) by lia.
    pose proof (filter_length_all _ _ Hf a Hin) as Ha.
    cbv beta in Ha. now rewrite String.eqb_refl in Ha.
  - apply IH. lia.
Qed.

Lemma of_int_injective (a b : Z) : of_int a = of_int b -> a = b.
Proof.
  unfold of_int. intros H. apply Q2Qc_eq_iff in H.
  exact (proj1 (inject_Z_injective a b) H).
Qed.

Lemma close_to_refl (x : Qc) : close_to x x.
Proof.
  unfold close_to. replace (x - x)%Qc with (Q2Qc 0) by ring. discriminate.
Qed.

(** X6. Under linear the credits of a non-empty journey sum, within the
    tolerance 1e-9, to the number of its distinct URLs over its length: a
    repeated URL is paid once, not once per occurrence. *)
Theorem linear_sum (journey : list string) :
  journey <> [] ->
  close_to (sum_values (calculate_attribution_scores journey "linear"))
    (truediv (len (unique journey)) (len journey)).
Proof.
  intros Hne.
  assert (Hsum : sum_values (calculate_attribution_scores journey "linear")
                 = truediv (len (unique journey)) (len journey)).
  { unfold sum_values, values.
    rewrite (scores_constant (f1_0 / of_int (len journey))%Qc) by reflexivity.
    rewrite map_map. cbn [snd]. rewrite qsum_constant, f1_0_one.
    unfold truediv, Qcdiv. ring. }
  rewrite Hsum. apply close_to_refl.
Qed.

Lemma linear_sum_witness :
  ["/a"; "/b"; "/a"; "/c"] <> []
  /\ close_to
       (sum_values (calculate_attribution_scores ["/a"; "/b"; "/a"; "/c"]
                      "linear"))
       (truediv 3 4).
Proof.
  assert (Hne : ["/a"; "/b"; "/a"; "/c"] <> []) by discriminate.
  split; [exact Hne|].
  exact (linear_sum ["/a"; "/b"; "/a"; "/c"] Hne).
Defined.

(** * More on aggregation *)

Lemma of_int_zero : of_int 0 = Q2Qc 0.
Proof. reflexivity. Qed.

Lemma dict_get_default_set_same {V : Type} (k : string) (v dflt : V)
    (d : dict V) :
  dict_get_default k dflt (dict_set k v d) = v.
Proof. unfold dict_get_default. now rewrite dict_get_set_same. Qed.

Lemma dict_get_default_set_other {V : Type} (k k' : string) (v dflt : V)
    (d : dict V) :
  k <> k' -> dict_get_default k dflt (dict_set k' v d) = dict_get_default k dflt d.
Proof. intros H. unfold dict_get_default. now rewrite dict_get_set_other. Qed.

(** Adding the scores of one journey adds, under each URL, what the journey
    grants it. *)
Lemma add_scores_get (journey_scores article_scores : dict Qc) (url : string) :
  NoDup (keys journey_scores) ->
  dict_get_default url (of_int 0) (add_scores journey_scores article_scores)
  = (dict_get_default url (of_int 0) article_scores
     + dict_get_default url (of_int 0) journey_scores)%Qc.
Proof.
  unfold add_scores, items. revert article_scores.
  induction journey_scores as [|[k s] js IH]; intros acc Hnd.
  - simpl. unfold dict_get_default at 3. simpl. rewrite of_int_zero. ring.
  - inversion Hnd as [|? ? Hk Hnd']; subst. cbn [fold_left].
    rewrite IH by assumption.
    unfold dict_get_default at 3 5. cbn [dict_get].
    destruct (String.eqb_spec url k) as [->|Hne].
    + rewrite dict_get_default_set_same.
      apply dict_get_None in Hk. rewrite Hk, of_int_zero. ring.
    + now rewrite dict_get_default_set_other.
Qed.

Lemma add_scores_keys (journey_scores article_scores : dict Qc) (url : string) :
  In url (keys (add_scores journey_scores article_scores))
  <-> In url (keys article_scores) \/ In url (keys journey_scores).
Proof.
  unfold add_scores, items. revert article_scores.
  induction journey_scores as [|[k s] js IH]; intros acc; simpl.
  - tauto.
  - rewrite IH, keys_set.
    destruct (in_dec string_dec k (keys acc)) as [Hin|Hout].
    + split; [tauto|]. intros [H|[<-|H]]; auto.
    + rewrite in_app_iff. simpl. tauto.
Qed.

Lemma add_scores_NoDup (journey_scores article_scores : dict Qc) :
  NoDup (keys article_scores) ->
  NoDup (keys (add_scores journey_scores article_scores)).
Proof.
  unfold add_scores, items. revert article_scores.
  induction journey_scores as [|[k s] js IH]; intros acc H; simpl; auto.
  apply IH. now apply NoDup_keys_set.
Qed.

Lemma sum_values_app (d1 d2 : dict Qc) :
  sum_values (d1 ++ d2) = (sum_values d1 + sum_values d2)%Qc.
Proof. unfold sum_values, values. now rewrite map_app, qsum_app. Qed.




Lemma aggregate_returns (journeys : dict (list string)) (method : string) :
  aggregate journeys method
  = Returned (fold_left (aggregate_step method) (values journeys) []).
Proof.
  unfold aggregate.
  now rewrite (for_each_returns _
                 (fun journey article_scores =>
                    add_scores (calculate_attribution_scores journey method)
                      article_scores)).
Qed.

Lemma scores_keys_NoDup (journey : list string) (method : string) :
  NoDup (keys (calculate_attribution_scores journey method)).
Proof.
  rewrite scores_as_assignments. apply NoDup_keys_assign_all. constructor.
Qed.

Lemma aggregated_get (method : string) (journeys : list (list string))
    (acc : dict Qc) (url : string) :
  dict_get_default url (of_int 0) (fold_left (aggregate_step method) journeys acc)
  = (dict_get_default url (of_int 0) acc + total_credit method url journeys)%Qc.
Proof.
  revert acc. induction journeys as [|j js IH]; intros acc; cbn [fold_left].
  - unfold total_credit. simpl. ring.
  - rewrite IH. unfold aggregate_step.
    rewrite add_scores_get by apply scores_keys_NoDup.
    unfold total_credit. cbn [map]. rewrite qsum_cons.
    unfold journey_credit at 2. ring.
Qed.

Lemma aggregated_keys (method : string) (journeys : list (list string))
    (acc : dict Qc) (url : string) :
  In url (keys (fold_left (aggregate_step method) journeys acc))
  <-> In url (keys acc)
      \/ exists journey,
           In journey journeys
           /\ In url (keys (calculate_attribution_scores journey method)).
Proof.
  revert acc. induction journeys as [|j js IH]; intros acc; cbn [fold_left].
  - split; [tauto|]. intros [H|(j & [] & _)]. exact H.
  - rewrite IH. unfold aggregate_step. rewrite add_scores_keys. split.
    + intros [[H|H]|(j' & Hj' & H)]; eauto.
      * right. exists j. split; auto. now left.
      * right. exists j'. split; auto. now right.
    + intros [H|(j' & [<-|Hj'] & H)]; eauto.
Qed.

Lemma aggregated_NoDup (method : string) (journeys : list (list string))
    (acc : dict Qc) :
  NoDup (keys acc) -> NoDup (keys (fold_left (aggregate_step method) journeys acc)).
Proof.
  revert acc. induction journeys as [|j js IH]; intros acc H; simpl; auto.
  apply IH. now apply add_scores_NoDup.
Qed.


Lemma in_build_results_iff (article_scores : dict Qc) (r : InfluenceRow) :
  In r (build_results article_scores)
  <-> prefix "/articles/" (row_page_url r) = true
      /\ row_page_name r = last (split slash (row_page_url r)) ""
      /\ In (row_page_url r, total r) article_scores.
Proof.
  rewrite build_results_flat_map, in_flat_map. split.
  - intros ([url score] & Hin & H).
    destruct (prefix "/articles/" url) eqn:E; [|destruct H].
    destruct H as [<-|[]]. simpl. auto.
  - intros (Hp & Hn & Hin). exists (row_page_url r, total r). split; auto.
    rewrite Hp. left. destruct r as [name url t]. simpl in *. now subst.
Qed.

Lemma in_ranked (results : list InfluenceRow) (r : InfluenceRow) :
  In r (sort_values_total_desc results) <-> In r results.
Proof.
  unfold sort_values_total_desc. split; apply Permutation_in.
  - apply Permutation_sym, stable_sort_perm.
  - apply stable_sort_perm.
Qed.

Lemma in_keys_iff {V : Type} (d : dict V) (k : string) :
  In k (keys d) <-> exists v, In (k, v) d.
Proof.
  unfold keys. rewrite in_map_iff. split.
  - intros ([k' v] & <- & H). eauto.
  - intros (v & H). exists (k, v). auto.
Qed.

(** X7. In the table returned by [analyze_user_journeys] the total of a row
    is the sum, over the extracted journeys, of the credit the scorer gives
    the row's URL in each journey; a URL has a row exactly when it starts
    with "/articles/" and the scorer gives it an entry in some journey. *)
Theorem row_totals (log : list Event) (method : string)
    (rows : list InfluenceRow) :
  analyze_user_journeys log method = Returned rows ->
  exists journeys,
    extract_journeys (read_csv log) = Returned journeys
    /\ (forall r,
          In r rows ->
          total r = total_credit method (row_page_url r) (values journeys))
    /\ (forall url,
          In url (map row_page_url rows)
          <-> prefix "/articles/" url = true
              /\ exists journey,
                   In journey (values journeys)
                   /\ In url (keys (calculate_attribution_scores journey
                                      method))).
Proof.
  intros H. apply analyze_returns in H as (journeys & scores & Hj & Ha & ->).
  exists journeys. split; [exact Hj|].
  rewrite aggregate_returns in Ha. injection Ha as <-.
  set (scores := fold_left (aggregate_step method) (values journeys) []).
  assert (Hnd : NoDup (keys scores)) by (apply aggregated_NoDup; constructor).
  split.
  - intros r Hr. apply in_ranked, in_build_results_iff in Hr as (_ & _ & Hin).
    pose proof (aggregated_get method (values journeys) [] (row_page_url r))
      as Hget.
    fold scores in Hget. unfold dict_get_default at 1 2 in Hget.
    rewrite (dict_get_in _ _ _ Hnd Hin) in Hget. simpl in Hget.
    rewrite Hget, of_int_zero. ring.
  - intros url. rewrite in_map_iff. split.
    + intros (r & <- & Hr).
      apply in_ranked, in_build_results_iff in Hr as (Hp & _ & Hin).
      split; auto.
      assert (Hk : In (row_page_url r) (keys scores))
        by (apply in_keys_iff; eauto).
      apply aggregated_keys in Hk as [[]|Hk]. exact Hk.
    + intros (Hp & Hj'). 
      assert (Hk : In url (keys scores)) by (apply aggregated_keys; auto).
      apply in_keys_iff in Hk as (v & Hv).
      exists (mkRow (last (split slash url) "") url v). split; auto.
      apply in_ranked, in_build_results_iff. simpl. auto.
Qed.

Lemma row_totals_witness :
  exists journeys,
    extract_journeys (read_csv two_readers) = Returned journeys
    /\ (of_int 0 + f1_0 + f1_0)%Qc
       = total_credit "count" "/articles/b" (values journeys).
Proof.
  assert (H : analyze_user_journeys two_readers "count"
              = Returned [mkRow "b" "/articles/b" (of_int 0 + f1_0 + f1_0)%Qc;
                          mkRow "a" "/articles/a" (of_int 0 + f1_0)%Qc;
                          mkRow "c" "/articles/c" (of_int 0 + f1_0)%Qc])
    by reflexivity.
  destruct (row_totals two_readers "count" _ H) as (journeys & Hj & Htot & _).
  exists journeys. split; [exact Hj|].
  exact (Htot (mkRow "b" "/articles/b" (of_int 0 + f1_0 + f1_0)%Qc)
           (or_introl eq_refl)).
Defined.

Lemma existsb_eqb_unique (url : string) (l : list string) :
  existsb (fun u => u =? url) (unique l) = existsb (String.eqb url) l.
Proof.
  apply eq_iff_eq_true. rewrite !existsb_exists. split.
  - intros (x & Hx & E). apply String.eqb_eq in E. subst.
    exists url. split; [now apply in_unique | apply String.eqb_refl].
  - intros (x & Hx & E). apply String.eqb_eq in E. subst.
    exists x. split; [now apply in_unique | apply String.eqb_refl].
Qed.

Lemma count_credit (url : string) (journey : list string) :
  journey_credit "count" url journey
  = if existsb (String.eqb url) journey then f1_0 else of_int 0.
Proof.
  unfold journey_credit, dict_get_default.
  rewrite (scores_constant f1_0) by reflexivity.
  rewrite dict_get_constant, existsb_eqb_unique.
  now destruct (existsb (String.eqb url) journey).
Qed.

Lemma total_count (url : string) (journeys : list (list string)) :
  total_credit "count" url journeys
  = of_int (Z.of_nat (journeys_visiting url journeys)).
Proof.
  unfold total_credit, journeys_visiting.
  induction journeys as [|j js IH]; [reflexivity|].
  cbn [map filter]. rewrite qsum_cons, IH, count_credit.
  destruct (existsb (String.eqb url) j); cbn [List.length].
  - rewrite Nat2Z.inj_succ, <- Z.add_1_l, of_int_add, of_int_one, f1_0_one.
    reflexivity.
  - rewrite of_int_zero. ring.
Qed.

(** X8. Under count the total of a row is the number of extracted journeys
    that visit the row's URL, however often a journey visits it. *)
Theorem count_totals (log : list Event) (rows : list InfluenceRow) :
  analyze_user_journeys log "count" = Returned rows ->
  exists journeys,
    extract_journeys (read_csv log) = Returned journeys
    /\ forall r,
         In r rows ->
         total r
         = of_int (Z.of_nat (journeys_visiting (row_page_url r)
                               (values journeys))).
Proof.
  intros H. apply analyze_returns in H as (journeys & scores & Hj & Ha & ->).
  exists journeys. split; [exact Hj|].
  rewrite aggregate_returns in Ha. injection Ha as <-.
  set (scores := fold_left (aggregate_step "count") (values journeys) []).
  assert (Hnd : NoDup (keys scores)) by (apply aggregated_NoDup; constructor).
  intros r Hr. apply in_ranked, in_build_results_iff in Hr as (_ & _ & Hin).
  pose proof (aggregated_get "count" (values journeys) [] (row_page_url r))
    as Hget.
  fold scores in Hget. unfold dict_get_default at 1 2 in Hget.
  rewrite (dict_get_in _ _ _ Hnd Hin) in Hget. simpl in Hget.
  rewrite Hget, total_count, of_int_zero. ring.
Qed.

Lemma count_totals_witness :
  exists journeys,
    extract_journeys (read_csv two_readers) = Returned journeys
    /\ (of_int 0 + f1_0 + f1_0)%Qc
       = of_int (Z.of_nat (journeys_visiting "/articles/b" (values journeys))).
Proof.
  assert (H : analyze_user_journeys two_readers "count"
              = Returned [mkRow "b" "/articles/b" (of_int 0 + f1_0 + f1_0)%Qc;
                          mkRow "a" "/articles/a" (of_int 0 + f1_0)%Qc;
                          mkRow "c" "/articles/c" (of_int 0 + f1_0)%Qc])
    by reflexivity.
  destruct (count_totals two_readers _ H) as (journeys & Hj & Htot).
  exists journeys. split; [exact Hj|].
  exact (Htot (mkRow "b" "/articles/b" (of_int 0 + f1_0 + f1_0)%Qc)
           (or_introl eq_refl)).
Defined.

(** X9. The table returned by [analyze_user_journeys] has one row per URL,
    and every row's URL starts with "/articles/"; the registration URL never
    gets a row. *)
Theorem rows_are_articles (log : list Event) (method : string)
    (rows : list InfluenceRow) :
  analyze_user_journeys log method = Returned rows ->
  NoDup (map row_page_url rows)
  /\ forall r,
       In r rows ->
       prefix "/articles/" (row_page_url r) = true
       /\ row_page_url r <> "/register".
Proof.
  intros H. apply analyze_returns in H as (journeys & scores & Hj & Ha & ->).
  rewrite aggregate_returns in Ha. injection Ha as <-.
  set (scores := fold_left (aggregate_step method) (values journeys) []).
  assert (Hnd : NoDup (keys scores)) by (apply aggregated_NoDup; constructor).
  split.
  - apply (Permutation_NoDup
             (Permutation_map row_page_url
                (stable_sort_perm _ (build_results scores)))).
    rewrite build_results_urls. now apply NoDup_filter.
  - intros r Hr. apply in_ranked, in_build_results_iff in Hr as (Hp & _ & _).
    split; auto. intros E. rewrite E in Hp. discriminate Hp.
Qed.

Lemma rows_are_articles_witness :
  NoDup (map row_page_url
           [mkRow "b" "/articles/b" (of_int 0 + f1_0 + f1_0)%Qc;
            mkRow "a" "/articles/a" (of_int 0 + f1_0)%Qc;
            mkRow "c" "/articles/c" (of_int 0 + f1_0)%Qc]).
Proof.
  assert (H : analyze_user_journeys two_readers "count"
              = Returned [mkRow "b" "/articles/b" (of_int 0 + f1_0 + f1_0)%Qc;
                          mkRow "a" "/articles/a" (of_int 0 + f1_0)%Qc;
                          mkRow "c" "/articles/c" (of_int 0 + f1_0)%Qc])
    by reflexivity.
  exact (proj1 (rows_are_articles two_readers "count" _ H)).
Defined.






(** * More on [analyze_user_journeys] *)

Lemma registered_somewhere (log : list Event) (user : string) :
  existsb (fun e => page_url e =? "/register") log = false ->
  registered log user = false.
Proof.
  unfold registered, user_events. intros H.
  apply not_true_iff_false. intros Hreg. apply not_true_iff_false in H.
  apply H. apply existsb_exists in Hreg as (e & He & Hurl).
  apply filter_In in He as [He _]. apply existsb_exists. eauto.
Qed.

Lemma extract_user_unregistered (log : list Event) (user : string)
    (journeys : dict (list string)) :
  registered log user = false ->
  extract_user (read_csv log) user journeys = Returned journeys.
Proof.
  intros H. unfold extract_user.
  now rewrite registration_row_registered, H.
Qed.

Lemma fold_left_id {A B : Type} (l : list B) (a : A) :
  fold_left (fun s _ => s) l a = a.
Proof. induction l; simpl; auto. Qed.

(** X11. A log without any "/register" row, the empty log included, is no
    error: [analyze_user_journeys] returns the empty table, whatever the
    policy name. *)
Theorem no_registration_empty_table (log : list Event) (method : string) :
  existsb (fun e => page_url e =? "/register") log = false ->
  analyze_user_journeys log method = Returned [].
Proof.
  intros H. unfold analyze_user_journeys, extract_journeys.
  rewrite (for_each_returns _ (fun _ journeys => journeys)).
  - rewrite fold_left_id. reflexivity.
  - intros user journeys. apply extract_user_unregistered.
    now apply registered_somewhere.
Qed.

Lemma no_registration_empty_table_witness :
  analyze_user_journeys
    [visit "u1" "/articles/a" 2; visit "u2" "/articles/b" 1;
     visit "u1" "/articles/c" 1] "linear"
  = Returned [].
Proof.
  exact (no_registration_empty_table
           [visit "u1" "/articles/a" 2; visit "u2" "/articles/b" 1;
            visit "u1" "/articles/c" 1] "linear" eq_refl).
Defined.

Lemma extraction_returns_time_ordered (log : list Event) :
  (forall user, time_ordered (user_events log user) = true) ->
  exists journeys, extract_journeys (read_csv log) = Returned journeys.
Proof.
  intros Hord. unfold extract_journeys.
  rewrite (for_each_returns _
             (fun user journeys =>
                if qualifies log user
                then dict_set user (journey_of log user) journeys
                else journeys))
    by (intros; now apply extract_user_time_ordered).
  eauto.
Qed.

Lemma analysis_after_extraction (log : list Event) (method : string)
    (journeys : dict (list string)) :
  extract_journeys (read_csv log) = Returned journeys ->
  analyze_user_journeys log method
  = Returned
      (sort_values_total_desc
         (build_results
            (fold_left (aggregate_step method) (values journeys) []))).
Proof.
  intros Hj. unfold analyze_user_journeys. rewrite Hj. cbn [bind].
  rewrite aggregate_returns. cbn [bind].
  now destruct (build_results _).
Qed.



Lemma unrecognized_scores (journey : list string) (method : string) :
  recognized method = false -> calculate_attribution_scores journey method = [].
Proof.
  unfold recognized. simpl. intros H.
  destruct journey as [|first rest]; [reflexivity|].
  unfold calculate_attribution_scores.
  repeat match type of H with
         | (?b || _) = false => destruct b; [discriminate H | simpl in H]
         end.
  reflexivity.
Qed.

(** X14. With a policy name outside the recognized set, whenever
    [analyze_user_journeys] returns, it returns the empty table: no error
    tells the caller that the name was wrong. *)
Theorem unknown_policy_empty_table (log : list Event) (method : string)
    (rows : list InfluenceRow) :
  recognized method = false ->
  analyze_user_journeys log method = Returned rows -> rows = [].
Proof.
  intros Hm H. apply analyze_returns in H as (journeys & scores & _ & Ha & ->).
  rewrite aggregate_returns in Ha. injection Ha as <-.
  assert (E : forall js acc,
             fold_left (aggregate_step method) js acc = acc).
  { induction js as [|j js IH]; intros acc; simpl; auto.
    rewrite IH. unfold aggregate_step. now rewrite unrecognized_scores. }
  now rewrite E.
Qed.

Lemma unknown_policy_empty_table_witness :
  recognized "shapley" = false
  /\ analyze_user_journeys two_readers "shapley" = Returned []
  /\ @nil InfluenceRow = [].
Proof.
  assert (H : analyze_user_journeys two_readers "shapley" = Returned [])
    by reflexivity.
  split; [reflexivity|]. split; [exact H|].
  exact (unknown_policy_empty_table two_readers "shapley" [] eq_refl H).
Defined.

Lemma in_firstn {A : Type} (n : nat) (l : list A) (x : A) :
  In x (firstn n l) -> In x l.
Proof.
  revert l. induction n as [|n IH]; intros [|a l]; simpl; try tauto.
  intros [H|H]; auto.
Qed.

Lemma in_read_csv (log : list Event) (r : Z * Event) :
  In r (read_csv log) -> In (snd r) log.
Proof.
  intros H. apply (in_map snd) in H. unfold read_csv in H.
  now rewrite map_snd_enumerate in H.
Qed.

(** A journey recorded in a round of the loop is made of URLs of rows of
    that user. *)
Lemma extract_user_source (df : frame) (user : string)
    (journeys journeys' : dict (list string)) (u : string) (j : list string) :
  extract_user df user journeys = Returned journeys' ->
  In (u, j) journeys' ->
  In (u, j) journeys
  \/ (u = user
      /\ forall url,
           In url j ->
           exists r, In r df /\ user_id (snd r) = user
                     /\ page_url (snd r) = url).
Proof.
  unfold extract_user.
  set (user_data :=
         sort_values_timestamp (filter (fun r => user_id (snd r) =? user) df)).
  destruct (existsb is_registration user_data); cbn [negb];
    [|intros [= <-]; auto].
  destruct (index _) as [|registration_index rest]; [discriminate|].
  unfold loc_upto. destruct (get_slice_bound_right _ _) as [stop|e];
    cbn [bind]; [|discriminate].
  destruct (map _ (firstn stop user_data)) as [|url urls] eqn:Erows.
  - intros [= <-]. auto.
  - intros [= <-] Hin. apply in_dict_set_inv in Hin as [[-> ->]|Hin]; auto.
    right. split; auto. intros url' Hurl. rewrite <- Erows in Hurl.
    apply in_map_iff in Hurl as (r & <- & Hr). apply in_firstn in Hr.
    unfold user_data, sort_values_timestamp in Hr.
    apply (Permutation_in _ (Permutation_sym (stable_sort_perm _ _))) in Hr.
    apply filter_In in Hr as [Hr Hu]. apply String.eqb_eq in Hu. eauto.
Qed.

(** X15. Whenever the extraction returns, every URL of a user's journey is
    the URL of a row of that same user: a journey never holds a page another
    user viewed. *)
Theorem journey_from_own_events (log : list Event)
    (journeys : dict (list string)) (user : string) (journey : list string) :
  extract_journeys (read_csv log) = Returned journeys ->
  In (user, journey) journeys ->
  forall url,
    In url journey ->
    exists e, In e log /\ user_id e = user /\ page_url e = url.
Proof.
  intros H. revert user journey. revert H. unfold extract_journeys.
  apply (for_each_invariant
           (fun js => forall user journey,
                In (user, journey) js ->
                forall url, In url journey ->
                exists e, In e log /\ user_id e = user /\ page_url e = url)).
  - intros u js js' Hjs Hu user journey Hin url Hurl.
    destruct (extract_user_source _ _ _ _ _ _ Hu Hin) as [Hold|[-> Hsrc]].
    + eauto.
    + destruct (Hsrc url Hurl) as (r & Hr & Hid & Hpu).
      exists (snd r). split; auto. now apply in_read_csv.
  - intros user journey [].
Qed.

Lemma journey_from_own_events_witness :
  exists e,
    In e late_logged_registration
    /\ user_id e = "u" /\ page_url e = "/articles/a".
Proof.
  exact (journey_from_own_events late_logged_registration
           [("u", ["/articles/b"; "/register"; "/articles/a"])]
           "u" ["/articles/b"; "/register"; "/articles/a"]
           eq_refl (or_introl eq_refl) "/articles/a"
           (or_intror (or_intror (or_introl eq_refl)))).
Defined.

(** * The entry point *)

Lemma sorted_app_le {A : Type} (R : A -> A -> Prop) (l1 l2 : list A) :
  StronglySorted R (l1 ++ l2) ->
  forall x y, In x l1 -> In y l2 -> R x y.
Proof.
  induction l1 as [|a l1 IH]; simpl; intros Hs x y Hx Hy; [tauto|].
  inversion Hs as [|? ? Hs' Hall]; subst. destruct Hx as [<-|Hx]; eauto.
  rewrite Forall_forall in Hall. apply Hall, in_app_iff. auto.
Qed.

(** X16. For [top >= 0], the table [analysis] prints and writes is the
    [top] first rows of the ranked table, all of them when there are fewer:
    every row it keeps has a total at least that of every row it drops. *)
Theorem top_rows (log : list Event) (method : string) (top : Z)
    (topN : list InfluenceRow) :
  (0 <= top)%Z ->
  analysis log method top = Returned topN ->
  exists rows,
    analyze_user_journeys log method = Returned rows
    /\ topN = firstn (Z.to_nat top) rows
    /\ List.length topN = Nat.min (Z.to_nat top) (List.length rows)
    /\ forall kept dropped,
         In kept topN -> In dropped rows -> ~ In dropped topN ->
         (total dropped <= total kept)%Qc.
Proof.
  intros Htop. unfold analysis.
  destruct (analyze_user_journeys log method) as [rows|e] eqn:Ea;
    cbn [bind]; [|discriminate].
  intros [= <-]. exists rows. unfold head.
  destruct (Z.leb_spec 0 top) as [_|]; [|lia].
  repeat split; auto using length_firstn.
  intros kept dropped Hk Hd Hnot.
  apply analyze_returns in Ea as (journeys & scores & _ & _ & ->).
  set (ranked := sort_values_total_desc (build_results scores)) in *.
  assert (Hsorted : StronglySorted
                      (fun r1 r2 => Qle_bool (total r2) (total r1) = true)
                      ranked).
  { apply stable_sort_sorted;
      [exact (fun a b => total_leb_total a b)
      |exact (fun a b c => total_leb_trans a b c)]. }
  rewrite <- (firstn_skipn (Z.to_nat top) ranked) in Hsorted, Hd.
  apply in_app_iff in Hd as [Hd|Hd]; [contradiction|].
  apply Qle_bool_iff.
  exact (sorted_app_le _ _ _ Hsorted kept dropped Hk Hd).
Qed.

Lemma top_rows_witness :
  analysis two_readers "count" 2
  = Returned [mkRow "b" "/articles/b" (of_int 0 + f1_0 + f1_0)%Qc;
              mkRow "a" "/articles/a" (of_int 0 + f1_0)%Qc]
  /\ exists rows,
       analyze_user_journeys two_readers "count" = Returned rows
       /\ [mkRow "b" "/articles/b" (of_int 0 + f1_0 + f1_0)%Qc;
           mkRow "a" "/articles/a" (of_int 0 + f1_0)%Qc]
          = firstn 2 rows.
Proof.
  assert (H : analysis two_readers "count" 2
              = Returned [mkRow "b" "/articles/b" (of_int 0 + f1_0 + f1_0)%Qc;
                          mkRow "a" "/articles/a" (of_int 0 + f1_0)%Qc])
    by reflexivity.
  split; [exact H|].
  assert (Htop : (0 <= 2)%Z) by lia.
  destruct (top_rows two_readers "count" 2 _ Htop H) as (rows & Hr & Hf & _).
  exists rows. split; [exact Hr | exact Hf].
Defined.

(** * The synthetic data generator *)

Lemma counter_draws_laws : RandomLaws Z counter_draws.
Proof.
  constructor; simpl.
  - intros a b s Hab.
    pose proof (Z.mod_pos_bound s (b - a + 1)) as H. lia.
  - intros population k s Hk. unfold len in *. rewrite length_firstn. lia.
  - intros population k s Hk x Hx. eapply in_firstn; eauto.
  - intros population k s Hk Hnd.
    rewrite <- (firstn_skipn (Z.to_nat k) population) in Hnd.
    now apply NoDup_app_remove_r in Hnd.
Qed.

(** ** Decimal names *)

Lemma to_int_not_nil (n : Z) :
  Z.to_int n <> Decimal.Pos Decimal.Nil /\ Z.to_int n <> Decimal.Neg Decimal.Nil.
Proof.
  destruct n as [|p|p]; simpl; split; try discriminate;
    intros [= H]; now apply Unsigned.to_uint_nonnil in H.
Qed.

Lemma str_injective (a b : Z) : str a = str b -> a = b.
Proof.
  unfold str. intros H.
  apply (f_equal NilZero.int_of_string) in H.
  destruct (to_int_not_nil a) as [Ha1 Ha2], (to_int_not_nil b) as [Hb1 Hb2].
  rewrite !NilZero.isi in H by assumption.
  injection H as H. now apply DecimalZ.to_int_inj.
Qed.

Lemma digits_no_slash (d : Decimal.uint) :
  contains slash (NilEmpty.string_of_uint d) = false.
Proof. unfold contains. induction d; simpl; auto. Qed.

Lemma str_no_slash (n : Z) : contains slash (str n) = false.
Proof.
  unfold str. destruct (Z.to_int n) as [d|d]; simpl.
  - destruct d; try apply digits_no_slash. reflexivity.
  - unfold contains. cbn [list_ascii_of_string existsb]. 
    change (existsb (Ascii.eqb slash)
              (list_ascii_of_string (NilZero.string_of_uint d)))
      with (contains slash (NilZero.string_of_uint d)).
    destruct d; try apply digits_no_slash. reflexivity.
Qed.

Lemma split_no_sep (sep : ascii) (s : string) :
  contains sep s = false -> split sep s = [s].
Proof.
  unfold contains. induction s as [|c s IH]; simpl; auto.
  intros H. apply orb_false_iff in H as [Hc Hs].
  rewrite (Ascii.eqb_sym c sep), Hc, IH by assumption. reflexivity.
Qed.

Lemma article_name (i : Z) :
  last (split slash ("/articles/article" ++ str i)%string) ""
  = ("article" ++ str i)%string.
Proof.
  pose proof (split_no_sep slash (str i) (str_no_slash i)) as H.
  simpl. rewrite H. reflexivity.
Qed.

Lemma article_not_register (i : Z) :
  ("/articles/article" ++ str i)%string <> "/register".
Proof. discriminate. Qed.

Lemma user_name_injective (a b : Z) :
  ("user" ++ str a)%string = ("user" ++ str b)%string -> a = b.
Proof. simpl. intros [= H]. now apply str_injective. Qed.

(** ** Runs of the generator *)

Lemma time_ordered_cons (e : Event) (l : list Event) :
  time_ordered l = true ->
  (forall e', In e' l -> (timestamp e <= timestamp e')%Z) ->
  time_ordered (e :: l) = true.
Proof.
  intros Hl Hle. destruct l as [|e2 l]; auto.
  cbn [time_ordered] in *. rewrite Hl, andb_true_r.
  apply Z.leb_le, Hle. now left.
Qed.

Lemma time_ordered_tail (e : Event) (l : list Event) :
  time_ordered (e :: l) = true -> time_ordered l = true.
Proof.
  destruct l as [|e2 l]; auto. cbn [time_ordered].
  intros H. now apply andb_prop in H as [_ H].
Qed.

Lemma time_ordered_snoc (l : list Event) (e : Event) :
  time_ordered l = true ->
  (forall e', In e' l -> (timestamp e' <= timestamp e)%Z) ->
  time_ordered (l ++ [e]) = true.
Proof.
  induction l as [|e1 l IH]; intros Hl Hle; auto.
  cbn [app]. apply time_ordered_cons.
  - apply IH; [now apply time_ordered_tail in Hl|]. intros; apply Hle; now right.
  - intros e' Hin. apply in_app_iff in Hin as [Hin|[<-|[]]].
    + clear IH Hle. revert e1 Hl. induction l as [|e2 l IHl]; intros e1 Hl;
        [destruct Hin|].
      cbn [time_ordered] in Hl. apply andb_prop in Hl as [H12 Hl].
      apply Z.leb_le in H12. destruct Hin as [<-|Hin]; auto.
      specialize (IHl Hin e2 Hl). lia.
    + apply Hle. now left.
Qed.

Section GeneratorRuns.
Context {rng : Type} {R : Random rng} (L : RandomLaws rng R).

Lemma add_articles_block (user : string) (journey : list string)
    (data : list Event) (t : Z) (s : rng) (data' : list Event) (t' : Z)
    (s' : rng) :
  add_articles user journey data t s = Generated (data', t') s' ->
  exists block,
    data' = data ++ block
    /\ map page_url block = journey
    /\ (forall e,
          In e block ->
          user_id e = user
          /\ page_name e = last (split slash (page_url e)) ""
          /\ (t <= timestamp e <= t')%Z)
    /\ (t <= t')%Z
    /\ time_ordered block = true.
Proof.
  revert data t s. induction journey as [|article rest IH]; intros data t s.
  - cbn [add_articles]. unfold gen_ret. intros [= <- <- <-].
    exists []. rewrite app_nil_r.
    split; [reflexivity|]. split; [reflexivity|].
    split; [intros e []|]. split; [lia | reflexivity].
  - cbn [add_articles]. unfold gen_bind, py_randint. cbn [Z.ltb Z.compare].
    pose proof (randint_range rng R L 1 5 s ltac:(lia)) as Hgap.
    set (minutes := fst (randint 1 5 s)) in *.
    intros H. apply IH in H as (block & -> & Hurls & Hrows & Ht & Hord).
    exists (mkEvent (last (split slash article) "") article user t :: block).
    split; [now rewrite <- app_assoc|].
    split; [cbn [map page_url]; now rewrite Hurls|].
    split; [|split; [lia|]].
    + intros e [<-|He].
      * cbn [user_id page_name page_url timestamp]. repeat split; lia.
      * destruct (Hrows e He) as (Hu & Hn & Hts). repeat split; auto; lia.
    + apply time_ordered_cons; auto. intros e' He'.
      destruct (Hrows e' He') as (_ & _ & Hts). simpl. lia.
Qed.

Lemma add_articles_returns (user : string) (journey : list string)
    (data : list Event) (t : Z) (s : rng) :
  exists added s', add_articles user journey data t s = Generated added s'.
Proof.
  revert data t s. induction journey as [|article rest IH]; intros data t s.
  - cbn [add_articles]. unfold gen_ret. eauto.
  - cbn [add_articles]. unfold gen_bind, py_randint. cbn [Z.ltb Z.compare].
    apply IH.
Qed.

(** What one round of the loop over the users appends. *)
Lemma generate_user_block (articles : list string) (max : Z) (rate : Qc)
    (n : Z) (data : list Event) (s : rng) (data' : list Event) (s' : rng) :
  generate_user articles max rate n data s = Generated data' s' ->
  exists first block,
    data' = data ++ first :: block
    /\ article_row articles first
    /\ (forall e,
          In e (first :: block) ->
          user_id e = ("user" ++ str n)%string
          /\ (register_row e \/ article_row articles e))
    /\ time_ordered (first :: block) = true.
Proof.
  unfold generate_user, gen_bind, py_randint at 1, py_random.
  cbn [Z.ltb Z.compare].
  set (s1 := snd (randint 0 24 s)).
  set (t := (base_timestamp + fst (randint 0 24 s) * 3600)%Z).
  unfold py_randint. destruct (Z.ltb_spec max 1) as [|Hmax]; [discriminate|].
  pose proof (randint_range rng R L 1 max s1 Hmax) as Hk.
  set (k := fst (randint 1 max s1)) in *. set (s2 := snd (randint 1 max s1)).
  unfold py_sample.
  destruct ((k <? 0)%Z || (len articles <? k)%Z) eqn:Ek; [discriminate|].
  apply orb_false_iff in Ek as [Ek0 Ek1].
  apply Z.ltb_ge in Ek0, Ek1.
  pose proof (sample_length rng R L articles k s2 (conj Ek0 Ek1)) as Hlen.
  pose proof (sample_incl rng R L articles k s2 (conj Ek0 Ek1)) as Hincl.
  set (journey := fst (sample articles k s2)) in *.
  set (s3 := snd (sample articles k s2)).
  destruct (add_articles _ journey data t s3) as [[data1 t1] s4|] eqn:Eadd;
    [|discriminate].
  apply add_articles_block in Eadd as (block & -> & Hurls & Hrows & Ht & Hord).
  assert (Hblock : exists first rest, block = first :: rest).
  { destruct block as [|first rest]; eauto.
    simpl in Hurls. rewrite <- Hurls in Hlen. unfold len in Hlen.
    simpl in Hlen. lia. }
  destruct Hblock as (first & rest & ->).
  assert (Harticle : forall e, In e (first :: rest) -> article_row articles e).
  { intros e He. split; [|now apply Hrows].
    apply Hincl. rewrite <- Hurls. now apply in_map. }
  cbn [fst snd].
  assert (Hplain :
            exists first0 block0,
              (data ++ first :: rest) = data ++ first0 :: block0
              /\ article_row articles first0
              /\ (forall e,
                    In e (first0 :: block0) ->
                    user_id e = ("user" ++ str n)%string
                    /\ (register_row e \/ article_row articles e))
              /\ time_ordered (first0 :: block0) = true).
  { exists first, rest. split; [reflexivity|].
    split; [apply Harticle; now left|]. split; [|exact Hord].
    intros e He. split; [now apply Hrows | right; now apply Harticle]. }
  destruct (fst (random s4) ?= rate)%Qc; unfold gen_ret; intros [= <- <-];
    try exact Hplain.
  exists first, (rest ++ [mkEvent "Register" "/register"
                            ("user" ++ str n)%string t1]).
  split; [now rewrite <- app_assoc|].
  split; [apply Harticle; now left|]. split.
  - intros e He.
    change (In e ((first :: rest)
                  ++ [mkEvent "Register" "/register"
                        ("user" ++ str n)%string t1])) in He.
    apply in_app_iff in He as [He|[<-|[]]].
    + split; [now apply Hrows | right; now apply Harticle].
    + split; [reflexivity | left; split; reflexivity].
  - change (time_ordered ((first :: rest)
              ++ [mkEvent "Register" "/register" ("user" ++ str n)%string t1])
            = true).
    apply time_ordered_snoc; auto. intros e' He'.
    destruct (Hrows e' He') as (_ & _ & Hts). simpl. lia.
Qed.
End GeneratorRuns.

Lemma filter_none {A : Type} (p : A -> bool) (l : list A) :
  (forall x, In x l -> p x = false) -> filter p l = [].
Proof.
  induction l as [|a l IH]; simpl; intros H; auto.
  rewrite H by auto. auto.
Qed.

Lemma user_events_app (data block : list Event) (user : string) :
  user_events (data ++ block) user
  = user_events data user ++ user_events block user.
Proof. unfold user_events. apply filter_app. Qed.

Lemma in_range_from_1 (n j : Z) : In j (range_from_1 n) <-> (1 <= j <= n)%Z.
Proof.
  unfold range_from_1. rewrite in_map_iff. split.
  - intros (k & <- & Hk). apply in_seq in Hk. lia.
  - intros Hj. exists (Z.to_nat j). split; [lia|]. apply in_seq. lia.
Qed.

Lemma range_from_1_NoDup (n : Z) : NoDup (range_from_1 n).
Proof.
  unfold range_from_1. apply Finite.Injective_map_NoDup.
  - intros a b. apply Nat2Z.inj.
  - apply seq_NoDup.
Qed.

Section GeneratorLoop.
Context {rng : Type} {R : Random rng} (L : RandomLaws rng R).
Variables (articles : list string) (max : Z) (rate : Qc).

Lemma generated_ok_more (done done' : list Z) (data : list Event) :
  incl done done' -> generated_ok articles done data ->
  generated_ok articles done' data.
Proof.
  intros Hincl (Hrows & Hord & Hfirst). split; [|split; assumption].
  intros e He. destruct (Hrows e He) as [(j & Hj & Hu) Hshape].
  split; eauto.
Qed.

Lemma generate_user_ok (done : list Z) (n : Z) (data : list Event) (s : rng)
    (data' : list Event) (s' : rng) :
  ~ In n done -> generated_ok articles done data ->
  generate_user articles max rate n data s = Generated data' s' ->
  generated_ok articles (n :: done) data'.
Proof.
  intros Hn (Hrows & Hord & Hfirst) Hgen.
  apply (generate_user_block L) in Hgen
    as (first & block & -> & Hart & Hblock & Hbord).
  assert (Hown : user_events (first :: block) ("user" ++ str n)%string
                 = first :: block).
  { unfold user_events. apply filter_all. intros e He.
    apply String.eqb_eq. now apply Hblock. }
  assert (Hold : user_events data ("user" ++ str n)%string = []).
  { unfold user_events. apply filter_none. intros e He.
    destruct (Hrows e He) as [(j & Hj & Hu) _]. rewrite Hu.
    apply String.eqb_neq. intros E. apply user_name_injective in E.
    congruence. }
  assert (Hother : forall user,
             user <> ("user" ++ str n)%string ->
             user_events (first :: block) user = []).
  { intros user Hne. unfold user_events. apply filter_none. intros e He.
    apply String.eqb_neq. destruct (Hblock e He) as [-> _]. congruence. }
  split; [|split].
  - intros e He. apply in_app_iff in He as [He|He].
    + destruct (Hrows e He) as [(j & Hj & Hu) Hshape]. split; auto.
      exists j. split; auto. now right.
    + destruct (Hblock e He) as [Hu Hshape]. split; auto.
      exists n. split; auto. now left.
  - intros user. rewrite user_events_app.
    destruct (string_dec user ("user" ++ str n)%string) as [->|Hne].
    + now rewrite Hold, Hown.
    + rewrite (Hother user Hne), app_nil_r. apply Hord.
  - intros user e rest. rewrite user_events_app.
    destruct (string_dec user ("user" ++ str n)%string) as [->|Hne].
    + rewrite Hold, Hown. now intros [= <- _].
    + rewrite (Hother user Hne), app_nil_r. apply Hfirst.
Qed.

Lemma generate_users_ok (users done : list Z) (data : list Event) (s : rng)
    (data' : list Event) (s' : rng) :
  NoDup users -> (forall n, In n users -> ~ In n done) ->
  generated_ok articles done data ->
  gen_for_each (generate_user articles max rate) users data s
  = Generated data' s' ->
  generated_ok articles (users ++ done) data'.
Proof.
  revert done data s.
  induction users as [|n users IH]; intros done data s Hnd Hfresh Hok.
  - cbn [gen_for_each]. unfold gen_ret. now intros [= <- <-].
  - cbn [gen_for_each]. unfold gen_bind.
    destruct (generate_user articles max rate n data s) as [data1 s1|] eqn:En;
      [|discriminate].
    inversion Hnd as [|? ? Hn Hnd']; subst. intros Hrest.
    apply (generate_user_ok done) in En; auto; [|apply Hfresh; now left].
    apply (IH (n :: done)) in Hrest; auto.
    + eapply generated_ok_more; [|exact Hrest].
      intros x Hx. apply in_app_iff in Hx as [Hx|[<-|Hx]].
      * right. apply in_app_iff. auto.
      * now left.
      * right. apply in_app_iff. auto.
    + intros x Hx [<-|Hd]; [contradiction|]. apply (Hfresh x); auto.
      now right.
Qed.

Lemma generate_user_returns (n : Z) (data : list Event) (s : rng) :
  (1 <= max <= len articles)%Z ->
  exists data' s', generate_user articles max rate n data s = Generated data' s'.
Proof.
  intros Hmax. unfold generate_user, gen_bind, py_randint at 1, py_random.
  cbn [Z.ltb Z.compare]. set (s1 := snd (randint 0 24 s)).
  unfold py_randint. destruct (Z.ltb_spec max 1) as [|_]; [lia|].
  pose proof (randint_range rng R L 1 max s1 ltac:(lia)) as Hk.
  set (k := fst (randint 1 max s1)) in *. unfold py_sample.
  destruct (Z.ltb_spec k 0) as [|_]; [lia|].
  destruct (Z.ltb_spec (len articles) k) as [|_]; [lia|]. cbn [orb].
  match goal with
  | |- context [add_articles ?u ?j ?d ?t ?s0] =>
      destruct (add_articles_returns u j d t s0) as (added & s4 & ->)
  end.
  destruct (fst (random s4) ?= rate)%Qc; unfold gen_ret; eauto.
Qed.

Lemma generate_users_return (users : list Z) (data : list Event) (s : rng) :
  (1 <= max <= len articles)%Z ->
  exists data' s',
    gen_for_each (generate_user articles max rate) users data s
    = Generated data' s'.
Proof.
  intros Hmax. revert data s.
  induction users as [|n users IH]; intros data s.
  - cbn [gen_for_each]. unfold gen_ret. eauto.
  - cbn [gen_for_each]. unfold gen_bind.
    destruct (generate_user_returns n data s Hmax) as (data1 & s1 & ->).
    apply IH.
Qed.

Lemma generate_user_raises (n : Z) (data : list Event) (s : rng) :
  (max < 1 \/ len articles < 1)%Z ->
  generate_user articles max rate n data s = ValueError.
Proof.
  intros Hbad. unfold generate_user, gen_bind, py_randint at 1.
  cbn [Z.ltb Z.compare]. set (s1 := snd (randint 0 24 s)).
  unfold py_randint. destruct (Z.ltb_spec max 1) as [|Hmax]; [reflexivity|].
  pose proof (randint_range rng R L 1 max s1 Hmax) as Hk.
  set (k := fst (randint 1 max s1)) in *. unfold py_sample.
  destruct (Z.ltb_spec (len articles) k) as [|]; [|lia].
  now rewrite orb_true_r.
Qed.
End GeneratorLoop.

Lemma len_article_urls (num_articles : Z) :
  (0 <= num_articles)%Z -> len (article_urls num_articles) = num_articles.
Proof.
  intros H. unfold len, article_urls, range_from_1.
  rewrite !length_map, length_seq. lia.
Qed.

Lemma len_article_urls_small (num_articles : Z) :
  (num_articles < 1)%Z -> (len (article_urls num_articles) < 1)%Z.
Proof.
  intros H. unfold len, article_urls, range_from_1.
  rewrite !length_map, length_seq. lia.
Qed.

Lemma in_article_urls (num_articles : Z) (url : string) :
  In url (article_urls num_articles)
  <-> exists i, (1 <= i <= num_articles)%Z
                /\ url = ("/articles/article" ++ str i)%string.
Proof.
  unfold article_urls. rewrite in_map_iff. split.
  - intros (i & <- & Hi). apply in_range_from_1 in Hi. eauto.
  - intros (i & Hi & ->). exists i. split; auto. now apply in_range_from_1.
Qed.

Lemma generated_ok_nil (articles : list string) : generated_ok articles [] [].
Proof.
  split; [|split].
  - intros e [].
  - reflexivity.
  - intros user e rest. discriminate.
Qed.

Lemma generated_data_ok {rng : Type} {R : Random rng} (L : RandomLaws rng R)
    (num_users num_articles max : Z) (rate : Qc) (s : rng)
    (df : list Event) (s' : rng) :
  generate_synthetic_data num_users num_articles max rate s = Generated df s' ->
  generated_ok (article_urls num_articles) (range_from_1 num_users) df.
Proof.
  intros H. unfold generate_synthetic_data in H.
  apply (generate_users_ok L _ _ _ _ []) in H;
    auto using range_from_1_NoDup, generated_ok_nil.
  now rewrite app_nil_r in H.
Qed.

(** X17. With at least one article per journey allowed and at least as
    many articles as a journey may hold, the generator returns a frame: no
    draw makes [randint] or [sample] raise. *)
Theorem generation_returns {rng : Type} {R : Random rng}
    (L : RandomLaws rng R) (num_users num_articles max : Z) (rate : Qc)
    (s : rng) :
  (1 <= max <= num_articles)%Z ->
  exists df s',
    generate_synthetic_data num_users num_articles max rate s = Generated df s'.
Proof.
  intros Hmax. unfold generate_synthetic_data.
  apply (generate_users_return L). fold (article_urls num_articles).
  rewrite len_article_urls; lia.
Qed.

Lemma generation_returns_witness :
  exists df s',
    generate_synthetic_data (R := counter_draws) 3 4 3 (Q2Qc 0.3) 1%Z
    = Generated df s'.
Proof.
  apply (generation_returns counter_draws_laws 3 4 3 (Q2Qc 0.3) 1%Z). lia.
Defined.

(** X18. With at least one user to generate, the generator ends in
    [ValueError] when a journey may hold no article
    ([max_articles_per_journey < 1]) or when there is no article to sample
    from ([num_articles < 1]). *)
Theorem generation_value_error {rng : Type} {R : Random rng}
    (L : RandomLaws rng R) (num_users num_articles max : Z) (rate : Qc)
    (s : rng) :
  (1 <= num_users)%Z -> (max < 1 \/ num_articles < 1)%Z ->
  generate_synthetic_data num_users num_articles max rate s = ValueError.
Proof.
  intros Husers Hbad. unfold generate_synthetic_data, range_from_1 at 2.
  destruct (Z.to_nat num_users) as [|k] eqn:Ek; [lia|].
  cbn [seq map gen_for_each]. unfold gen_bind.
  rewrite (generate_user_raises L); [reflexivity|].
  destruct Hbad as [H|H]; [now left|].
  right. now apply len_article_urls_small.
Qed.

Lemma generation_value_error_witness :
  generate_synthetic_data (R := counter_draws) 2 0 5 (Q2Qc 0.3) 0%Z
  = ValueError.
Proof.
  apply (generation_value_error counter_draws_laws 2 0 5 (Q2Qc 0.3) 0%Z); lia.
Defined.

(** X19. Every row the generator writes belongs to one of the users
    "user1" ... "user<num_users>" and is either the registration row
    ("Register", "/register") or the row of an article
    "/articles/article<i>", 1 <= i <= num_articles, whose page_name is
    "article<i>", the last segment of its URL. *)
Theorem generated_rows {rng : Type} {R : Random rng} (L : RandomLaws rng R)
    (num_users num_articles max : Z) (rate : Qc) (s : rng)
    (df : list Event) (s' : rng) :
  generate_synthetic_data num_users num_articles max rate s = Generated df s' ->
  forall e,
    In e df ->
    (exists j, (1 <= j <= num_users)%Z /\ user_id e = ("user" ++ str j)%string)
    /\ (register_row e
        \/ exists i,
             (1 <= i <= num_articles)%Z
             /\ page_url e = ("/articles/article" ++ str i)%string
             /\ page_name e = ("article" ++ str i)%string).
Proof.
  intros H e He. apply (generated_data_ok L) in H as (Hrows & _ & _).
  destruct (Hrows e He) as [(j & Hj & Hu) Hshape]. split.
  - exists j. split; auto. now apply in_range_from_1.
  - destruct Hshape as [Hreg|[Hurl Hname]]; [now left|]. right.
    apply in_article_urls in Hurl as (i & Hi & Hurl). exists i.
    split; [exact Hi|]. split; [exact Hurl|].
    rewrite Hname, Hurl. apply article_name.
Qed.

Lemma example_data_generated :
  generate_synthetic_data (R := counter_draws) 3 4 3 (Q2Qc 0.3) 1%Z
  = Generated example_data 20%Z.
Proof. vm_compute. reflexivity. Qed.

Lemma generated_rows_witness :
  exists i,
    (1 <= i <= 4)%Z
    /\ page_url (mkEvent "article3" "/articles/article3" "user1" 1711019160)
       = ("/articles/article" ++ str i)%string
    /\ page_name (mkEvent "article3" "/articles/article3" "user1" 1711019160)
       = ("article" ++ str i)%string.
Proof.
  destruct (generated_rows counter_draws_laws 3 4 3 (Q2Qc 0.3) 1%Z
              example_data 20%Z example_data_generated
              (mkEvent "article3" "/articles/article3" "user1" 1711019160)
              (or_intror (or_intror (or_introl eq_refl))))
    as [_ [[Hreg _]|Hart]].
  - discriminate Hreg.
  - exact Hart.
Defined.

(** X20. Data generated for at least one user always analyses: whatever
    the policy name, [analyze_user_journeys] on a frame the generator
    returned returns a table, and every row of it is an article
    ("/articles/...").  (With no user the generator returns a frame without
    columns, which is outside [frame].) *)
Theorem generated_data_analyses {rng : Type} {R : Random rng}
    (L : RandomLaws rng R) (num_users num_articles max : Z) (rate : Qc)
    (s : rng) (df : list Event) (s' : rng) (method : string) :
  (1 <= num_users)%Z ->
  generate_synthetic_data num_users num_articles max rate s = Generated df s' ->
  exists rows,
    analyze_user_journeys df method = Returned rows
    /\ forall r, In r rows -> prefix "/articles/" (row_page_url r) = true.
Proof.
  intros _ H. apply (generated_data_ok L) in H as (_ & Hord & _).
  destruct (extraction_returns_time_ordered df Hord) as (journeys & Hj).
  rewrite (analysis_after_extraction df method journeys Hj).
  eexists. split; [reflexivity|]. intros r Hr.
  now apply in_ranked, in_build_results_iff in Hr as (Hp & _).
Qed.

Lemma generated_data_analyses_witness :
  exists rows,
    analyze_user_journeys example_data "time_decay" = Returned rows
    /\ forall r, In r rows -> prefix "/articles/" (row_page_url r) = true.
Proof.
  apply (generated_data_analyses counter_draws_laws 3 4 3 (Q2Qc 0.3) 1%Z
           example_data 20%Z "time_decay"); [lia|].
  exact example_data_generated.
Defined.

(** X21. In generated data the rows of every user stand in time order,
    and every user who has a registration row qualifies: their rows start
    with an article, so a non-empty journey precedes the registration. *)
Theorem generated_registered_qualify {rng : Type} {R : Random rng}
    (L : RandomLaws rng R) (num_users num_articles max : Z) (rate : Qc)
    (s : rng) (df : list Event) (s' : rng) :
  generate_synthetic_data num_users num_articles max rate s = Generated df s' ->
  (forall user, time_ordered (user_events df user) = true)
  /\ (forall user, registered df user = true -> qualifies df user = true).
Proof.
  intros H. apply (generated_data_ok L) in H as (_ & Hord & Hfirst).
  split; [exact Hord|]. intros user Hreg.
  unfold qualifies, journey_of. rewrite Hreg.
  rewrite stable_sort_time_ordered by apply Hord.
  unfold registered in Hreg.
  destruct (user_events df user) as [|e rest] eqn:Eu; [discriminate|].
  destruct (Hfirst user e rest Eu) as [Hurl _].
  apply in_article_urls in Hurl as (i & _ & Hurl).
  cbn [before_registration]. rewrite Hurl. reflexivity.
Qed.

Lemma generated_registered_qualify_witness :
  (forall user, time_ordered (user_events example_data user) = true)
  /\ (forall user,
        registered example_data user = true ->
        qualifies example_data user = true).
Proof.
  exact (generated_registered_qualify counter_draws_laws 3 4 3
           (Q2Qc 0.3) 1%Z example_data 20%Z example_data_generated).
Defined.
